(** * Planetarium booking models: seat validation, uniqueness and cascades

    A shallow embedding of [planetarium/models.py].  Python integers are
    unbounded and are modelled by [Z]; Python strings by [string]; Python
    dictionaries by stdpp's [gmap]; a raised exception by the [Raise] branch
    of a result type.  The relational store behind the Django models is an
    explicit record of tables, each a finite map from primary key to row,
    threaded through a state-and-exception monad. *)

From Stdlib Require Import ZArith String Ascii List Lia DecimalString.
From Stdlib Require Import Decimal DecimalPos DecimalZ.
From stdpp Require Import base option list list_numbers gmap strings.
From stdpp Require Import fin_maps fin_sets sorting.

Local Open Scope string_scope.
Local Open Scope Z_scope.

(** ** Python values and exceptions *)

(** [str(n)] for a Python [int]: decimal digits, a leading minus sign for a
    negative number. *)
Definition str_int (n : Z) : string := NilZero.string_of_int (Z.to_int n).

(** The exceptions the modelled code can raise.  A [ValidationError] built
    from a dictionary carries its [error_dict]: field name to the list of
    messages for that field. *)
Inductive exn : Type :=
| ValidationError (error_dict : gmap string (list string))
| AttributeError (attr : string)
| ObjectDoesNotExist (model : string)
| ValueError (message : string)
| DatabaseError (message : string)
| IntegrityError (constraint : string).

Inductive result (A : Type) : Type :=
| Return (a : A)
| Raise (e : exn).
Arguments Return {A} a.
Arguments Raise {A} e.

(** [ValidationError({field: message, ...})]: every message is wrapped in a
    one-element error list. *)
Definition ValidationError_of_dict (d : gmap string string) : exn :=
  ValidationError ((λ m, [m]) <$> d).

(** ** PlanetariumDome *)

Module PlanetariumDome.
Record t : Type := mk { name : string; rows : Z; seats_in_row : Z }.

(** [@property capacity] : computed from the two fields at every read. *)
Definition capacity (self : t) : Z := rows self * seats_in_row self.

(** Attribute assignment [self.rows = r] and [self.seats_in_row = s]. *)
Definition set_rows (self : t) (r : Z) : t :=
  {| name := name self; rows := r; seats_in_row := seats_in_row self |}.
Definition set_seats_in_row (self : t) (s : Z) : t :=
  {| name := name self; rows := rows self; seats_in_row := s |}.

(** [getattr(planetarium_dome, dome_attr_name)] for the integer attributes
    (the stored fields and the derived property); any other attribute name
    has no integer to compare against. *)
Definition getattr (self : t) (attr : string) : option Z :=
  if String.eqb attr "rows" then Some (rows self)
  else if String.eqb attr "seats_in_row" then Some (seats_in_row self)
  else if String.eqb attr "capacity" then Some (capacity self)
  else None.
End PlanetariumDome.

(** A call raises when its result is an exception. *)
Definition raises {A} (r : result A) : Prop := ∃ e, r = Raise e.

(** ** Ticket.validate_ticket *)

(** The message built by the two adjacent f-strings of [validate_ticket]. *)
Definition range_message (ticket_attr_name dome_attr_name : string)
    (count_attrs : Z) : string :=
  ticket_attr_name +:+ " number must be in range: "
    +:+ "(1, " +:+ dome_attr_name +:+ ") → (1, " +:+ str_int count_attrs
    +:+ ")".

(** Python's chained comparison [1 <= v <= c]. *)
Definition in_range (v c : Z) : bool := (1 <=? v) && (v <=? c).

(** The body of the [for] loop, run over the list of triples
    [(ticket_attr_value, ticket_attr_name, dome_attr_name)]; the first
    iteration that raises ends the loop. *)
Fixpoint validate_loop (planetarium_dome : PlanetariumDome.t)
    (error_to_raise : gmap string string → exn)
    (triples : list (Z * string * string)) : result unit :=
  match triples with
  | [] => Return tt
  | (ticket_attr_value, ticket_attr_name, dome_attr_name) :: rest =>
      match PlanetariumDome.getattr planetarium_dome dome_attr_name with
      | None => Raise (AttributeError dome_attr_name)
      | Some count_attrs =>
          if negb (in_range ticket_attr_value count_attrs) then
            Raise (error_to_raise
                     {[ ticket_attr_name :=
                          range_message ticket_attr_name dome_attr_name
                            count_attrs ]})
          else validate_loop planetarium_dome error_to_raise rest
      end
  end.

Definition validate_ticket (row seat : Z)
    (planetarium_dome : PlanetariumDome.t)
    (error_to_raise : gmap string string → exn) : result unit :=
  validate_loop planetarium_dome error_to_raise
    [ (row, "row", "rows"); (seat, "seat", "seats_in_row") ].


(** The seats of the rectangular grid of a dome: rows [1 .. rows], seats
    [1 .. seats_in_row] in each. *)
Definition seat_grid (dome : PlanetariumDome.t) : gset (Z * Z) :=
  list_to_set
    (cprod (seqZ 1 (PlanetariumDome.rows dome))
       (seqZ 1 (PlanetariumDome.seats_in_row dome))).

(** ** The other models and the relational store *)

Module AstronomyShow.
Record t : Type :=
  mk { title : string; description : option string; image : option string }.
End AstronomyShow.

Module ShowSession.
(** Foreign keys hold the primary key of the row they point to. *)
Record t : Type :=
  mk { astronomy_show : Z; planetarium_dome : Z; show_time : Z }.
End ShowSession.

Module Reservation.
Record t : Type := mk { created_at : Z; user : Z }.
End Reservation.

Module Ticket.
(** The column values of a ticket. *)
Record t : Type :=
  mk { row : Z; seat : Z; show_session : Z; reservation : Z }.

(** A Python [Ticket] object: its primary key ([None] until it has one),
    the flag [_state.adding] (true for an object not loaded from, nor yet
    written to, the store), and its column values. *)
Record instance : Type :=
  new { pk : option Z; adding : bool; fields : t }.

(** [Meta.unique_together]. *)
Definition unique_together : list string := ["show_session"; "row"; "seat"].

(** The values of the [unique_together] columns. *)
Definition unique_key (x : t) : Z * Z * Z := (show_session x, row x, seat x).
End Ticket.

#[global] Instance PlanetariumDome_eq_dec : EqDecision PlanetariumDome.t.
Proof. solve_decision. Defined.
#[global] Instance AstronomyShow_eq_dec : EqDecision AstronomyShow.t.
Proof. solve_decision. Defined.
#[global] Instance ShowSession_eq_dec : EqDecision ShowSession.t.
Proof. solve_decision. Defined.
#[global] Instance Reservation_eq_dec : EqDecision Reservation.t.
Proof. solve_decision. Defined.
#[global] Instance Ticket_eq_dec : EqDecision Ticket.t.
Proof. solve_decision. Defined.

(** One table per model, keyed by primary key, and the join table of
    [AstronomyShow.show_themes] as pairs (show, theme). *)
Record DB : Type := mkDB {
  show_themes : gmap Z string;
  astronomy_shows : gmap Z AstronomyShow.t;
  astronomy_show_show_themes : gmap Z (Z * Z);
  planetarium_domes : gmap Z PlanetariumDome.t;
  show_sessions : gmap Z ShowSession.t;
  reservations : gmap Z Reservation.t;
  tickets : gmap Z Ticket.t
}.

Definition empty_db : DB := mkDB ∅ ∅ ∅ ∅ ∅ ∅ ∅.

Definition set_show_themes (f : gmap Z string → gmap Z string) (db : DB)
  : DB :=
  mkDB (f (show_themes db)) (astronomy_shows db)
    (astronomy_show_show_themes db) (planetarium_domes db) (show_sessions db)
    (reservations db) (tickets db).
Definition set_astronomy_shows
    (f : gmap Z AstronomyShow.t → gmap Z AstronomyShow.t) (db : DB) : DB :=
  mkDB (show_themes db) (f (astronomy_shows db))
    (astronomy_show_show_themes db) (planetarium_domes db) (show_sessions db)
    (reservations db) (tickets db).
Definition set_astronomy_show_show_themes
    (f : gmap Z (Z * Z) → gmap Z (Z * Z)) (db : DB) : DB :=
  mkDB (show_themes db) (astronomy_shows db)
    (f (astronomy_show_show_themes db)) (planetarium_domes db)
    (show_sessions db) (reservations db) (tickets db).
Definition set_planetarium_domes
    (f : gmap Z PlanetariumDome.t → gmap Z PlanetariumDome.t) (db : DB)
  : DB :=
  mkDB (show_themes db) (astronomy_shows db)
    (astronomy_show_show_themes db) (f (planetarium_domes db))
    (show_sessions db) (reservations db) (tickets db).
Definition set_show_sessions
    (f : gmap Z ShowSession.t → gmap Z ShowSession.t) (db : DB) : DB :=
  mkDB (show_themes db) (astronomy_shows db)
    (astronomy_show_show_themes db) (planetarium_domes db)
    (f (show_sessions db)) (reservations db) (tickets db).
Definition set_reservations
    (f : gmap Z Reservation.t → gmap Z Reservation.t) (db : DB) : DB :=
  mkDB (show_themes db) (astronomy_shows db)
    (astronomy_show_show_themes db) (planetarium_domes db) (show_sessions db)
    (f (reservations db)) (tickets db).
Definition set_tickets (f : gmap Z Ticket.t → gmap Z Ticket.t) (db : DB)
  : DB :=
  mkDB (show_themes db) (astronomy_shows db)
    (astronomy_show_show_themes db) (planetarium_domes db) (show_sessions db)
    (reservations db) (f (tickets db)).

(** The key an auto-incrementing primary key column gives the next row. *)
Definition next_pk {A} (table : gmap Z A) : Z :=
  Z.succ (foldr Z.max 0 (map fst (map_to_list table))).

(** ** Code that reads and writes the store *)

Definition M (A : Type) : Type := DB → result A * DB.

Definition ret {A} (a : A) : M A := λ db, (Return a, db).
Definition raise {A} (e : exn) : M A := λ db, (Raise e, db).
Definition bind {A B} (c : M A) (k : A → M B) : M B :=
  λ db, match c db with
        | (Return a, db') => k a db'
        | (Raise e, db') => (Raise e, db')
        end.
Definition get : M DB := λ db, (Return db, db).
Definition modify (f : DB → DB) : M unit := λ db, (Return tt, f db).

#[global] Instance M_ret : MRet M := @ret.
#[global] Instance M_bind : MBind M := λ A B k c, bind c k.

(** [errors = e.update_error_dict(errors)]: the messages of [e] are appended,
    field by field, to those already collected. *)
Definition update_error_dict (e errors : gmap string (list string))
  : gmap string (list string) :=
  union_with (λ old new, Some (old ++ new)%list) errors e.

(** [try: c  except ValidationError as e: errors = e.update_error_dict(errors)].
    Any other exception propagates. *)
Definition collect_validation_error (c : M unit)
    (errors : gmap string (list string)) : M (gmap string (list string)) :=
  λ db, match c db with
        | (Return _, db') => (Return errors, db')
        | (Raise (ValidationError e), db') =>
            (Return (update_error_dict e errors), db')
        | (Raise e, db') => (Raise e, db')
        end.

(** A query set over a table is the sub-table of the rows it selects. *)
Definition qs_exists {A} (qs : gmap Z A) : bool := bool_decide (qs ≠ ∅).

Definition lift_result {A} (r : result A) : M A := λ db, (r, db).

(** Unfolds the operations of [M] down to functions on stores. *)
Ltac unfold_M :=
  unfold mbind, mret, M_bind, M_ret, bind, ret, raise, get, modify,
    lift_result in *.

(** ** Ticket.clean, full_clean and save *)

Definition NON_FIELD_ERRORS : string := "__all__".

(** [Ticket.clean]: the dome is reached through [self.show_session] and then
    [.planetarium_dome], each fetched from the store by its foreign key. *)
Definition Ticket_clean (self : Ticket.instance) : M unit :=
  db ← get;
  match show_sessions db !! Ticket.show_session (Ticket.fields self) with
  | None => raise (ObjectDoesNotExist "ShowSession")
  | Some session =>
      match planetarium_domes db !! ShowSession.planetarium_dome session with
      | None => raise (ObjectDoesNotExist "PlanetariumDome")
      | Some dome =>
          lift_result
            (validate_ticket (Ticket.row (Ticket.fields self))
               (Ticket.seat (Ticket.fields self)) dome ValidationError_of_dict)
      end
  end.

(** The query of a uniqueness check: the rows with the same values in the
    checked columns, without the row of [self] when [self] is an object that
    is being edited (not added) and has a primary key. *)
Definition exclude_self {A} (self : Ticket.instance) (qs : gmap Z A)
  : gmap Z A :=
  match Ticket.pk self with
  | Some k => if Ticket.adding self then qs else delete k qs
  | None => qs
  end.

Definition unique_together_qs (self : Ticket.instance) (db : DB)
  : gmap Z Ticket.t :=
  exclude_self self
    (filter
       (λ kv, Ticket.unique_key kv.2 = Ticket.unique_key (Ticket.fields self))
       (tickets db)).

Definition unique_together_message : string :=
  "Ticket with this Show session, Row and Seat already exists.".
Definition unique_pk_message : string :=
  "Ticket with this ID already exists.".

(** The uniqueness checks of [Model.validate_unique(exclude)] for [Ticket]:
    the [unique_together] check, skipped when one of its fields is excluded,
    and the check of the primary key, made only for an object that is being
    added and has a key.  A failed check over several fields is filed under
    [NON_FIELD_ERRORS], a failed check of one field under that field. *)
Definition perform_unique_checks (self : Ticket.instance)
    (exclude : gset string) (db : DB) : gmap string (list string) :=
  let errors : gmap string (list string) := ∅ in
  let errors :=
    if bool_decide (Exists (λ name, name ∈ exclude) Ticket.unique_together)
    then errors
    else if qs_exists (unique_together_qs self db)
    then <[ NON_FIELD_ERRORS := [unique_together_message] ]> errors
    else errors in
  match Ticket.pk self with
  | Some k =>
      if bool_decide ("id" ∈ exclude) || negb (Ticket.adding self)
      then errors
      else if qs_exists (filter (λ kv, kv.1 = k) (tickets db))
      then <[ "id" := [unique_pk_message] ]> errors
      else errors
  | None => errors
  end.

Definition Ticket_validate_unique (self : Ticket.instance)
    (exclude : gset string) : M unit :=
  db ← get;
  let errors := perform_unique_checks self exclude db in
  if bool_decide (errors = ∅) then mret tt
  else raise (ValidationError errors).

(** The part of per-field validation that reads the store: a foreign key
    must be the primary key of a row of the table it points to. *)
Definition related_rows_exist (self : Ticket.instance) (db : DB)
  : gmap string (list string) :=
  let x := Ticket.fields self in
  let errors : gmap string (list string) := ∅ in
  let errors :=
    if bool_decide (Ticket.show_session x ∈ dom (show_sessions db))
    then errors
    else <[ "show_session" :=
              [ "show session instance with id "
                  +:+ str_int (Ticket.show_session x)
                  +:+ " does not exist." ] ]> errors in
  if bool_decide (Ticket.reservation x ∈ dom (reservations db)) then errors
  else <[ "reservation" :=
            [ "reservation instance with id "
                +:+ str_int (Ticket.reservation x)
                +:+ " does not exist." ] ]> errors.

(** ** Writing rows: the constraints the store enforces *)

(** The unique constraint that [unique_together] puts on the ticket table and
    the foreign keys of a ticket, checked by the store on every write of row
    [k]. *)
Definition write_ticket (k : Z) (x : Ticket.t) : M unit :=
  db ← get;
  if qs_exists
       (delete k
          (filter (λ kv, Ticket.unique_key kv.2 = Ticket.unique_key x)
             (tickets db)))
  then raise (IntegrityError "UNIQUE (show_session_id, row, seat)")
  else if negb (bool_decide (Ticket.show_session x ∈ dom (show_sessions db)))
  then raise (IntegrityError "FOREIGN KEY (show_session_id)")
  else if negb (bool_decide (Ticket.reservation x ∈ dom (reservations db)))
  then raise (IntegrityError "FOREIGN KEY (reservation_id)")
  else modify (set_tickets (insert k x)).

(** [Model.save(force_insert, force_update, using=None, update_fields=None)]
    as [Ticket] inherits it: without a primary key the row is inserted under
    the next key; with one, the row of that key is updated, or inserted when
    there is none.  The object comes back with its key, no longer adding. *)
Definition Model_save (self : Ticket.instance)
    (force_insert force_update : bool) : M Ticket.instance :=
  if force_insert && force_update then
    raise (ValueError "Cannot force both insert and updating in model saving.")
  else
    db ← get;
    match Ticket.pk self with
    | None =>
        if force_update then
          raise (ValueError
                   "Cannot force an update in save() with no primary key.")
        else
          let k := next_pk (tickets db) in
          write_ticket k (Ticket.fields self);;
          mret (Ticket.new (Some k) false (Ticket.fields self))
    | Some k =>
        if bool_decide (k ∈ dom (tickets db)) then
          if force_insert then raise (IntegrityError "UNIQUE (id)")
          else
            write_ticket k (Ticket.fields self);;
            mret (Ticket.new (Some k) false (Ticket.fields self))
        else if force_update then
          raise (DatabaseError "Forced update did not affect any rows.")
        else
          write_ticket k (Ticket.fields self);;
          mret (Ticket.new (Some k) false (Ticket.fields self))
    end.

Section TicketModel.
(** Per-field validation ([Model.clean_fields]) is the framework's: it
    checks each column value against its field type and reads the store to
    check that foreign keys point to existing rows.  It is taken here as
    any function from the object and the store to the errors it finds,
    field by field; it finds none exactly when it returns the empty
    dictionary. *)
Variable clean_fields : Ticket.instance → DB → gmap string (list string).

Definition Ticket_clean_fields (self : Ticket.instance) : M unit :=
  db ← get;
  let errors := clean_fields self db in
  if bool_decide (errors = ∅) then mret tt
  else raise (ValidationError errors).

(** [Model.full_clean()]: the three steps run in this order, each one's
    [ValidationError] collected; fields that already have an error are
    excluded from the uniqueness checks; the collected errors, if any, are
    raised together at the end. *)
Definition Ticket_full_clean (self : Ticket.instance) : M unit :=
  errors ← collect_validation_error (Ticket_clean_fields self) ∅;
  errors ← collect_validation_error (Ticket_clean self) errors;
  let exclude : gset string := dom errors ∖ {[ NON_FIELD_ERRORS ]} in
  errors ← collect_validation_error
             (Ticket_validate_unique self exclude) errors;
  if bool_decide (errors = ∅) then mret tt
  else raise (ValidationError errors).

(** The last step of [full_clean], from the errors that [clean_fields] and
    [clean] left: the uniqueness checks, then the raise, if any. *)
Definition full_clean_finish (self : Ticket.instance) (db : DB)
    (errors : gmap string (list string)) : result unit * DB :=
  let errors :=
    update_error_dict
      (perform_unique_checks self (dom errors ∖ {[ NON_FIELD_ERRORS ]}) db)
      errors in
  (if bool_decide (errors = ∅) then Return tt
   else Raise (ValidationError errors), db).

(** [Ticket.save]: full validation, then the inherited [Model.save]. *)
Definition Ticket_save (self : Ticket.instance)
    (force_insert force_update : bool) : M Ticket.instance :=
  Ticket_full_clean self;;
  Model_save self force_insert force_update.
End TicketModel.

(** ** The other writes: creation, update and cascading deletion *)

(** [PositiveIntegerField]: the column only holds values that are positive
    or zero. *)
Definition PositiveIntegerField_accepts (v : Z) : bool := 0 <=? v.

Definition write_planetarium_dome (k : Z) (d : PlanetariumDome.t) : M unit :=
  if negb (PositiveIntegerField_accepts (PlanetariumDome.rows d)) then
    raise (IntegrityError "CHECK (rows >= 0)")
  else if negb (PositiveIntegerField_accepts (PlanetariumDome.seats_in_row d))
  then raise (IntegrityError "CHECK (seats_in_row >= 0)")
  else modify (set_planetarium_domes (insert k d)).

(** [PlanetariumDome.objects.create(name=..., rows=..., seats_in_row=...)]. *)
Definition PlanetariumDome_create (d : PlanetariumDome.t) : M Z :=
  db ← get;
  let k := next_pk (planetarium_domes db) in
  write_planetarium_dome k d;; mret k.

(** [dome.save()] for the dome of primary key [k] after its attributes were
    assigned. *)
Definition PlanetariumDome_save (k : Z) (d : PlanetariumDome.t) : M unit :=
  write_planetarium_dome k d.

Definition AstronomyShow_create (x : AstronomyShow.t) : M Z :=
  db ← get;
  let k := next_pk (astronomy_shows db) in
  modify (set_astronomy_shows (insert k x));; mret k.

Definition ShowSession_create (x : ShowSession.t) : M Z :=
  db ← get;
  if negb (bool_decide
             (ShowSession.astronomy_show x ∈ dom (astronomy_shows db)))
  then raise (IntegrityError "FOREIGN KEY (astronomy_show_id)")
  else if negb (bool_decide
                  (ShowSession.planetarium_dome x ∈ dom (planetarium_domes db)))
  then raise (IntegrityError "FOREIGN KEY (planetarium_dome_id)")
  else
    let k := next_pk (show_sessions db) in
    modify (set_show_sessions (insert k x));; mret k.

Definition Reservation_create (x : Reservation.t) : M Z :=
  db ← get;
  let k := next_pk (reservations db) in
  modify (set_reservations (insert k x));; mret k.

(** Deleting a set of sessions takes with it, by [on_delete=CASCADE] of
    [Ticket.show_session], every ticket of one of them. *)
Definition cascade_show_sessions (doomed : gset Z) (db : DB) : DB :=
  set_tickets (filter (λ kv, Ticket.show_session kv.2 ∉ doomed))
    (set_show_sessions (filter (λ kv, kv.1 ∉ doomed)) db).

Definition Ticket_delete (k : Z) : M unit :=
  modify (set_tickets (delete k)).

(** [reservation.delete()]: [Ticket.reservation] is [on_delete=CASCADE]. *)
Definition Reservation_delete (k : Z) : M unit :=
  modify (λ db,
    set_reservations (delete k)
      (set_tickets (filter (λ kv, Ticket.reservation kv.2 ≠ k)) db)).

Definition ShowSession_delete (k : Z) : M unit :=
  modify (cascade_show_sessions {[ k ]}).

(** [show.delete()]: [ShowSession.astronomy_show] is [on_delete=CASCADE], and
    so is [Ticket.show_session]; the rows of the join table go too. *)
Definition AstronomyShow_delete (k : Z) : M unit :=
  modify (λ db,
    let doomed :=
      dom (filter (λ kv, ShowSession.astronomy_show kv.2 = k)
             (show_sessions db)) in
    set_astronomy_shows (delete k)
      (set_astronomy_show_show_themes (filter (λ kv, kv.2.1 ≠ k))
         (cascade_show_sessions doomed db))).

(** [dome.delete()]: [ShowSession.planetarium_dome] is [on_delete=CASCADE]. *)
Definition PlanetariumDome_delete (k : Z) : M unit :=
  modify (λ db,
    let doomed :=
      dom (filter (λ kv, ShowSession.planetarium_dome kv.2 = k)
             (show_sessions db)) in
    set_planetarium_domes (delete k) (cascade_show_sessions doomed db)).

(** ** Histories of the store *)

Inductive op : Type :=
| CreateShow (x : AstronomyShow.t)
| CreateDome (d : PlanetariumDome.t)
| SaveDome (k : Z) (d : PlanetariumDome.t)
| CreateSession (x : ShowSession.t)
| CreateReservation (x : Reservation.t)
| SaveTicket (self : Ticket.instance) (force_insert force_update : bool)
| DeleteTicket (k : Z)
| DeleteReservation (k : Z)
| DeleteSession (k : Z)
| DeleteShow (k : Z)
| DeleteDome (k : Z).

Section Histories.
Variable clean_fields : Ticket.instance → DB → gmap string (list string).

(** The store after one operation; an operation that raises leaves the
    store as it was when it raised. *)
Definition exec (o : op) (db : DB) : DB :=
  match o with
  | CreateShow x => (AstronomyShow_create x db).2
  | CreateDome d => (PlanetariumDome_create d db).2
  | SaveDome k d => (PlanetariumDome_save k d db).2
  | CreateSession x => (ShowSession_create x db).2
  | CreateReservation x => (Reservation_create x db).2
  | SaveTicket self fi fu => (Ticket_save clean_fields self fi fu db).2
  | DeleteTicket k => (Ticket_delete k db).2
  | DeleteReservation k => (Reservation_delete k db).2
  | DeleteSession k => (ShowSession_delete k db).2
  | DeleteShow k => (AstronomyShow_delete k db).2
  | DeleteDome k => (PlanetariumDome_delete k db).2
  end.

Definition run (history : list op) (db : DB) : DB :=
  foldl (λ db o, exec o db) db history.

(** The stores that some history of operations builds from the empty one. *)
Definition reachable (db : DB) : Prop :=
  ∃ history, db = run history empty_db.
End Histories.

(** ** Invariants of the store *)

(** No two rows of a ticket table agree on the [unique_together] columns. *)
Definition tickets_unique (table : gmap Z Ticket.t) : Prop :=
  ∀ i j x y,
    table !! i = Some x → table !! j = Some y →
    Ticket.unique_key x = Ticket.unique_key y → i = j.

(** Every row of a dome table holds values of [PositiveIntegerField] in
    [rows] and [seats_in_row]. *)
Definition domes_non_negative (table : gmap Z PlanetariumDome.t) : Prop :=
  map_Forall
    (λ _ d, 0 ≤ PlanetariumDome.rows d ∧ 0 ≤ PlanetariumDome.seats_in_row d)
    table.

(** A small history, after the fixtures of [tests.py]: a show, the dome
    "Best" of 25 rows of 25 seats, a session of the show in the dome, a
    reservation, and the ticket of row 25, seat 25 booked for the session. *)
Definition sample_history : list op :=
  [ CreateShow
      (AstronomyShow.mk "Sample show" (Some "Sample description") None);
    CreateDome (PlanetariumDome.mk "Best" 25 25);
    CreateSession (ShowSession.mk 1 1 1751893200);
    CreateReservation (Reservation.mk 1751800000 1);
    SaveTicket (Ticket.new None true (Ticket.mk 25 25 1 1)) false false ].

Definition sample_db : DB := run related_rows_exist sample_history empty_db.

(** ** show_image_file_path *)

(** Python strings are kept as their UTF-8 bytes; the characters the path
    functions look for, [/] and [.], are single bytes that occur in no longer
    sequence, so looking for them byte by byte finds the same places. *)

Fixpoint string_take (n : nat) (s : string) : string :=
  match n, s with
  | S n', String a rest => String a (string_take n' rest)
  | _, _ => EmptyString
  end.

Fixpoint string_drop (n : nat) (s : string) : string :=
  match n, s with
  | S n', String _ rest => string_drop n' rest
  | _, _ => s
  end.

(** [s.rfind(c)]: the index of the last [c] in [s], or [-1]. *)
Fixpoint rfind (c : ascii) (s : string) : Z :=
  match s with
  | EmptyString => -1
  | String a rest =>
      let i := rfind c rest in
      if 0 <=? i then i + 1 else if Ascii.eqb a c then 0 else -1
  end.

Definition startswith (c : ascii) (s : string) : bool :=
  match s with
  | String a _ => Ascii.eqb a c
  | EmptyString => false
  end.

Fixpoint endswith (c : ascii) (s : string) : bool :=
  match s with
  | EmptyString => false
  | String a EmptyString => Ascii.eqb a c
  | String _ rest => endswith c rest
  end.

Definition sep : ascii := "/"%char.
Definition extsep : ascii := "."%char.

(** The [while] loop of [genericpath._splitext]: it skips the leading dots of
    the last component; [fuel] is [dotIndex - filenameIndex], the number of
    iterations left. *)
Fixpoint splitext_loop (p : string) (dotIndex filenameIndex fuel : nat)
  : string * string :=
  match fuel with
  | O => (p, EmptyString)
  | S fuel' =>
      if bool_decide (String.get filenameIndex p ≠ Some extsep) then
        (string_take dotIndex p, string_drop dotIndex p)
      else splitext_loop p dotIndex (S filenameIndex) fuel'
  end.

(** [os.path.splitext(p)] on a POSIX system. *)
Definition splitext (p : string) : string * string :=
  let sepIndex := rfind sep p in
  let dotIndex := rfind extsep p in
  if sepIndex <? dotIndex then
    let filenameIndex := sepIndex + 1 in
    splitext_loop p (Z.to_nat dotIndex) (Z.to_nat filenameIndex)
      (Z.to_nat (dotIndex - filenameIndex))
  else (p, EmptyString).

(** [os.path.join(a, b)] on a POSIX system. *)
Definition join (a b : string) : string :=
  if startswith sep b then b
  else if bool_decide (a = EmptyString) || endswith sep a then a +:+ b
  else a +:+ String sep b.

(** [os.path.basename(p)] on a POSIX system. *)
Definition basename (p : string) : string :=
  string_drop (Z.to_nat (rfind sep p + 1)) p.

Fixpoint string_forallb (f : ascii → bool) (s : string) : bool :=
  match s with
  | EmptyString => true
  | String a rest => f a && string_forallb f rest
  end.

Definition is_lower_hex (a : ascii) : bool :=
  let n := N_of_ascii a in
  ((48 <=? n) && (n <=? 57) || (97 <=? n) && (n <=? 102))%N.

(** The characters a slug is made of: lower-case letters, digits, the
    underscore and the hyphen. *)
Definition is_slug_char (a : ascii) : bool :=
  let n := N_of_ascii a in
  ((48 <=? n) && (n <=? 57) || (97 <=? n) && (n <=? 122)
   || (n =? 95) || (n =? 45))%N.

Definition is_slug (s : string) : bool := string_forallb is_slug_char s.

(** The text of a UUID, [str(uuid.uuid4())]: 32 lower-case hexadecimal
    digits in groups of 8, 4, 4, 4 and 12 joined by hyphens. *)
Fixpoint is_uuid_groups (groups : list nat) (s : string) : bool :=
  match groups with
  | [] => bool_decide (s = EmptyString)
  | [n] =>
      string_forallb is_lower_hex s && bool_decide (String.length s = n)
  | n :: more =>
      string_forallb is_lower_hex (string_take n s)
      && bool_decide (String.length (string_take n s) = n)
      && startswith "-"%char (string_drop n s)
      && is_uuid_groups more (string_drop (S n) s)
  end.

Definition is_uuid_str (s : string) : bool :=
  is_uuid_groups [8; 4; 4; 4; 12]%nat s.

Section ShowImage.
(** [django.utils.text.slugify] is the framework's and normalises Unicode
    text; it is taken as a function on strings. *)
Variable slugify : string → string.

(** [show_image_file_path(instance, filename)], with the text of the
    identifier that [uuid.uuid4()] generates during the call given as
    [uuid4]. *)
Definition show_image_file_path (instance : AstronomyShow.t)
    (filename uuid4 : string) : string :=
  let '(_, extension) := splitext filename in
  let filename :=
    slugify (AstronomyShow.title instance) +:+ "-" +:+ uuid4
      +:+ extension in
  join "uploads/movies/" filename.
End ShowImage.

(** [slugify] on a title of ASCII characters only, where the Unicode
    normalisation changes nothing: lower-case the text, drop every character
    that is not a word character, white space or a hyphen, turn each run of
    white space and hyphens into one hyphen, and strip hyphens and
    underscores from both ends. *)
Definition ascii_lower (a : ascii) : ascii :=
  let n := N_of_ascii a in
  if ((65 <=? n) && (n <=? 90))%N then ascii_of_N (n + 32) else a.

Definition is_space (a : ascii) : bool :=
  let n := N_of_ascii a in
  ((9 <=? n) && (n <=? 13) || (28 <=? n) && (n <=? 32))%N.

Definition is_word (a : ascii) : bool :=
  let n := N_of_ascii a in
  ((48 <=? n) && (n <=? 57) || (65 <=? n) && (n <=? 90)
   || (97 <=? n) && (n <=? 122) || (n =? 95))%N.

Definition is_hyphen (a : ascii) : bool := (N_of_ascii a =? 45)%N.

(** [re.sub(r"[-\s]+", "-", value)]; [in_run] tells that the previous
    character was part of the current run. *)
Fixpoint collapse_runs (in_run : bool) (l : list ascii) : list ascii :=
  match l with
  | [] => []
  | a :: rest =>
      if is_hyphen a || is_space a then
        if in_run then collapse_runs true rest
        else "-"%char :: collapse_runs true rest
      else a :: collapse_runs false rest
  end.

Fixpoint lstrip_chars (f : ascii → bool) (l : list ascii) : list ascii :=
  match l with
  | a :: rest => if f a then lstrip_chars f rest else l
  | [] => []
  end.

Definition strip_chars (f : ascii → bool) (l : list ascii) : list ascii :=
  rev (lstrip_chars f (rev (lstrip_chars f l))).

Definition slugify_ascii (value : string) : string :=
  let value := map ascii_lower (list_ascii_of_string value) in
  let value :=
    List.filter (λ a, is_word a || is_space a || is_hyphen a) value in
  let value := collapse_runs false value in
  string_of_list_ascii
    (strip_chars (λ a, is_hyphen a || (N_of_ascii a =? 95)%N) value).


(** ** Further invariants of the store *)

(** Every foreign key of a stored ticket or session is the primary key of a
    stored row. *)
Definition referential_integrity (db : DB) : Prop :=
  (∀ k x, tickets db !! k = Some x →
     Ticket.show_session x ∈ dom (show_sessions db)
     ∧ Ticket.reservation x ∈ dom (reservations db))
  ∧ (∀ k s, show_sessions db !! k = Some s →
       ShowSession.astronomy_show s ∈ dom (astronomy_shows db)
       ∧ ShowSession.planetarium_dome s ∈ dom (planetarium_domes db)).




(** [show_session.tickets]: the related manager that
    [related_name="tickets"] gives a session, as the rows it selects. *)
Definition session_tickets (db : DB) (session : Z) : gmap Z Ticket.t :=
  filter (λ kv, Ticket.show_session kv.2 = session) (tickets db).

(** ** The default order of tickets and the text of a ticket *)

(** [Meta.ordering = ["row", "seat"]] of [Ticket]: by row, and by seat
    within a row. *)
Definition Ticket_ordering (a b : Z * Ticket.t) : Prop :=
  Ticket.row a.2 < Ticket.row b.2
  ∨ (Ticket.row a.2 = Ticket.row b.2 ∧ Ticket.seat a.2 ≤ Ticket.seat b.2).

#[global] Instance Ticket_ordering_dec : RelDecision Ticket_ordering.
Proof. intros a b. unfold Ticket_ordering. apply _. Defined.

(** The rows of a query set of tickets, read in the default order. *)
Definition Ticket_in_order (qs : gmap Z Ticket.t) : list (Z * Ticket.t) :=
  merge_sort Ticket_ordering (map_to_list qs).

Section Str.
(** [str(self.show_time)], the text of a date and time, is Python's. *)
Variable str_datetime : Z → string.

(** [ShowSession.__str__]: the title of the show, fetched through the
    foreign key, a space and the text of the time. *)
Definition ShowSession___str__ (self : ShowSession.t) : M string :=
  db ← get;
  match astronomy_shows db !! ShowSession.astronomy_show self with
  | None => raise (ObjectDoesNotExist "AstronomyShow")
  | Some show =>
      mret (AstronomyShow.title show +:+ " "
              +:+ str_datetime (ShowSession.show_time self))
  end.

(** [Ticket.__str__]. *)
Definition Ticket___str__ (self : Ticket.t) : M string :=
  db ← get;
  match show_sessions db !! Ticket.show_session self with
  | None => raise (ObjectDoesNotExist "ShowSession")
  | Some session =>
      text ← ShowSession___str__ session;
      mret (text +:+ " | row: " +:+ str_int (Ticket.row self)
              +:+ ", seat: " +:+ str_int (Ticket.seat self))
  end.
End Str.

(** * Properties *)

(** ** Range validation *)

Example validate_ticket_accepts_last_seat :
  validate_ticket 25 25 (PlanetariumDome.mk "Best" 25 25)
    ValidationError_of_dict = Return tt.
Proof. reflexivity. Qed.

Example validate_ticket_rejects_row_26 :
  validate_ticket 26 1 (PlanetariumDome.mk "Best" 25 25)
    ValidationError_of_dict
  = Raise (ValidationError
      {[ "row" := ["row number must be in range: (1, rows) → (1, 25)"] ]}).
Proof. vm_compute. reflexivity. Qed.

Lemma in_range_spec v c : in_range v c = true ↔ 1 ≤ v ≤ c.
Proof. unfold in_range. rewrite andb_true_iff, !Z.leb_le. tauto. Qed.

Lemma in_range_false v c : in_range v c = false ↔ ¬ (1 ≤ v ≤ c).
Proof.
  rewrite <- in_range_spec. destruct (in_range v c); split; congruence.
Qed.

(** The loop, unrolled over its two iterations. *)
Lemma validate_ticket_unfold row seat d err :
  validate_ticket row seat d err =
  if in_range row (PlanetariumDome.rows d) then
    if in_range seat (PlanetariumDome.seats_in_row d) then Return tt
    else Raise (err {[ "seat" := range_message "seat" "seats_in_row"
                                   (PlanetariumDome.seats_in_row d) ]})
  else Raise (err {[ "row" := range_message "row" "rows"
                                (PlanetariumDome.rows d) ]}).
Proof.
  unfold validate_ticket; cbn.
  destruct (in_range row _); cbn; [|done].
  by destruct (in_range seat _).
Qed.

Lemma range_message_row c :
  range_message "row" "rows" c
  = "row number must be in range: (1, rows) → (1, " +:+ str_int c +:+ ")".
Proof. reflexivity. Qed.

Lemma range_message_seat c :
  range_message "seat" "seats_in_row" c
  = "seat number must be in range: (1, seats_in_row) → (1, "
      +:+ str_int c +:+ ")".
Proof. reflexivity. Qed.

Lemma validate_ticket_row_fails row seat d err :
  ¬ (1 ≤ row ≤ PlanetariumDome.rows d) →
  validate_ticket row seat d err
  = Raise (err {[ "row" :=
        "row number must be in range: (1, rows) → (1, "
          +:+ str_int (PlanetariumDome.rows d) +:+ ")" ]}).
Proof.
  intros H%in_range_false. rewrite validate_ticket_unfold, H.
  by rewrite range_message_row.
Qed.

Lemma validate_ticket_seat_fails row seat d err :
  1 ≤ row ≤ PlanetariumDome.rows d →
  ¬ (1 ≤ seat ≤ PlanetariumDome.seats_in_row d) →
  validate_ticket row seat d err
  = Raise (err {[ "seat" :=
        "seat number must be in range: (1, seats_in_row) → (1, "
          +:+ str_int (PlanetariumDome.seats_in_row d) +:+ ")" ]}).
Proof.
  intros Hr%in_range_spec Hs%in_range_false.
  rewrite validate_ticket_unfold, Hr, Hs. by rewrite range_message_seat.
Qed.

Lemma validate_ticket_passes row seat d err :
  1 ≤ row ≤ PlanetariumDome.rows d →
  1 ≤ seat ≤ PlanetariumDome.seats_in_row d →
  validate_ticket row seat d err = Return tt.
Proof.
  intros Hr%in_range_spec Hs%in_range_spec.
  by rewrite validate_ticket_unfold, Hr, Hs.
Qed.

Lemma validate_ticket_return_iff row seat d err :
  validate_ticket row seat d err = Return tt
  ↔ 1 ≤ row ≤ PlanetariumDome.rows d
    ∧ 1 ≤ seat ≤ PlanetariumDome.seats_in_row d.
Proof.
  split; [|intros [??]; by apply validate_ticket_passes].
  rewrite validate_ticket_unfold, <- !in_range_spec.
  destruct (in_range row _), (in_range seat _); done.
Qed.

Lemma not_raises_iff {A} (r : result A) : ¬ raises r ↔ ∃ a, r = Return a.
Proof.
  unfold raises. destruct r as [a|e]; split.
  - eauto.
  - intros _ [e ?]; done.
  - intros H; destruct H; eauto.
  - intros [a ?]; done.
Qed.

(** C1. For every dome with [rows = R] and [seats_in_row = S] and every pair
    of integers (row, seat), [validate_ticket] raises no error if and only if
    [1 ≤ row ≤ R] and [1 ≤ seat ≤ S]; row [0], row [R + 1], seat [0] and
    seat [S + 1] each make it raise, whatever the other coordinate. *)
Theorem validate_ticket_range_iff (name : string) (R S : Z)
    (error_to_raise : gmap string string → exn) :
  let dome := PlanetariumDome.mk name R S in
  (∀ row seat,
     ¬ raises (validate_ticket row seat dome error_to_raise)
     ↔ 1 ≤ row ≤ R ∧ 1 ≤ seat ≤ S)
  ∧ (∀ seat, raises (validate_ticket 0 seat dome error_to_raise))
  ∧ (∀ seat, raises (validate_ticket (R + 1) seat dome error_to_raise))
  ∧ (∀ row, raises (validate_ticket row 0 dome error_to_raise))
  ∧ (∀ row, raises (validate_ticket row (S + 1) dome error_to_raise)).
Proof.
  intros dome.
  assert (Hiff : ∀ row seat,
    ¬ raises (validate_ticket row seat dome error_to_raise)
    ↔ 1 ≤ row ≤ R ∧ 1 ≤ seat ≤ S).
  { intros row seat. rewrite not_raises_iff.
    pose proof (validate_ticket_return_iff row seat dome error_to_raise) as H.
    cbn in H. rewrite <- H. split; [intros [[] ?]; done | eauto]. }
  assert (Hraise : ∀ row seat,
    ¬ (1 ≤ row ≤ R ∧ 1 ≤ seat ≤ S) →
    raises (validate_ticket row seat dome error_to_raise)).
  { intros row seat Hn.
    destruct (validate_ticket row seat dome error_to_raise) as [[]|e] eqn:E.
    - apply validate_ticket_return_iff in E. done.
    - by exists e. }
  split; [exact Hiff|].
  repeat split; intros; apply Hraise; cbn; lia.
Qed.

(** C9. When both coordinates are out of range, [validate_ticket] raises the
    error of the row field alone: the dictionary it is built from has the one
    key [row], no key [seat], and the result is the same whatever the seat
    is, since the iteration for the seat is never reached. *)
Theorem validate_ticket_both_out_of_range (row seat : Z)
    (dome : PlanetariumDome.t) (error_to_raise : gmap string string → exn) :
  ¬ (1 ≤ row ≤ PlanetariumDome.rows dome) →
  ¬ (1 ≤ seat ≤ PlanetariumDome.seats_in_row dome) →
  ∃ errors : gmap string string,
    validate_ticket row seat dome error_to_raise = Raise (error_to_raise errors)
    ∧ errors !! "row"
      = Some ("row number must be in range: (1, rows) → (1, "
                +:+ str_int (PlanetariumDome.rows dome) +:+ ")")
    ∧ dom errors = {[ "row" ]}
    ∧ errors !! "seat" = None
    ∧ ∀ seat', validate_ticket row seat' dome error_to_raise
               = Raise (error_to_raise errors).
Proof.
  intros Hrow _. eexists. split; [by apply validate_ticket_row_fails|].
  split; [by rewrite lookup_singleton_eq|].
  split; [by rewrite dom_singleton_L|].
  split; [by rewrite lookup_singleton_ne|].
  intros seat'. by apply validate_ticket_row_fails.
Qed.

Lemma validate_ticket_both_out_of_range_witness :
  ∃ errors : gmap string string,
    validate_ticket 26 0 (PlanetariumDome.mk "Best" 25 25)
      ValidationError_of_dict
    = Raise (ValidationError_of_dict errors)
    ∧ errors !! "row"
      = Some ("row number must be in range: (1, rows) → (1, "
                +:+ str_int 25 +:+ ")")
    ∧ dom errors = {[ "row" ]}
    ∧ errors !! "seat" = None
    ∧ ∀ seat', validate_ticket 26 seat' (PlanetariumDome.mk "Best" 25 25)
                 ValidationError_of_dict
               = Raise (ValidationError_of_dict errors).
Proof.
  apply (validate_ticket_both_out_of_range 26 0
           (PlanetariumDome.mk "Best" 25 25) ValidationError_of_dict);
    cbn; lia.
Defined.

(** ** Capacity *)

(** C4. The capacity read from a dome is the product of its current [rows]
    and [seats_in_row]; it is a function of these two fields alone, so after
    an assignment to either the value read is the new product. *)
Theorem capacity_is_current_product (name : string) (rows seats_in_row : Z) :
  let dome := PlanetariumDome.mk name rows seats_in_row in
  PlanetariumDome.capacity dome = rows * seats_in_row
  ∧ (∀ r, PlanetariumDome.capacity (PlanetariumDome.set_rows dome r)
          = r * seats_in_row)
  ∧ (∀ s, PlanetariumDome.capacity (PlanetariumDome.set_seats_in_row dome s)
          = rows * s)
  ∧ (∀ r s,
       PlanetariumDome.capacity
         (PlanetariumDome.set_seats_in_row (PlanetariumDome.set_rows dome r) s)
       = r * s)
  ∧ (∀ r, PlanetariumDome.capacity
            (PlanetariumDome.set_rows (PlanetariumDome.set_rows dome r) rows)
          = PlanetariumDome.capacity dome).
Proof. intros dome. repeat split. Qed.

(** ** The seats of a dome *)

Lemma seat_grid_spec (dome : PlanetariumDome.t) (row seat : Z) :
  (row, seat) ∈ seat_grid dome
  ↔ 1 ≤ row ≤ PlanetariumDome.rows dome
    ∧ 1 ≤ seat ≤ PlanetariumDome.seats_in_row dome.
Proof.
  unfold seat_grid. rewrite elem_of_list_to_set, list_elem_of_cprod.
  rewrite !elem_of_seqZ. cbn. lia.
Qed.

Lemma NoDup_cprod_list {A B} (l : list A) (k : list B) :
  NoDup l → NoDup k → NoDup (cprod l k).
Proof.
  intros Hl Hk. rewrite list_cprod_list_prod.
  induction Hl as [|a l Ha Hl IH]; cbn; [constructor|].
  apply NoDup_app. split; [|split; [|done]].
  - apply NoDup_fmap_2; [|done]. intros x y; congruence.
  - intros [a' b] [b' [[= -> ->] _]]%list_elem_of_fmap Hin.
    apply list_elem_of_In, in_prod_iff in Hin as [Hin _].
    by apply list_elem_of_In in Hin.
Qed.

Lemma seat_grid_size (dome : PlanetariumDome.t) :
  Z.of_nat (size (seat_grid dome))
  = Z.max 0 (PlanetariumDome.rows dome)
    * Z.max 0 (PlanetariumDome.seats_in_row dome).
Proof.
  unfold seat_grid. rewrite size_list_to_set.
  - rewrite list_cprod_list_prod, length_prod, !length_seqZ. lia.
  - apply NoDup_cprod_list; apply NoDup_seqZ.
Qed.

(** C10. For a dome whose [rows] and [seats_in_row] are values of their
    field type ([PositiveIntegerField]), any set that holds exactly the pairs
    (row, seat) that [validate_ticket] accepts has as many elements as the
    capacity of the dome; there is such a set; and when [rows] or
    [seats_in_row] is [0], no pair is accepted. *)
Theorem accepted_pairs_count_is_capacity (dome : PlanetariumDome.t)
    (error_to_raise : gmap string string → exn) :
  PositiveIntegerField_accepts (PlanetariumDome.rows dome) = true →
  PositiveIntegerField_accepts (PlanetariumDome.seats_in_row dome) = true →
  (∀ X : gset (Z * Z),
     (∀ row seat, (row, seat) ∈ X
        ↔ validate_ticket row seat dome error_to_raise = Return tt) →
     Z.of_nat (size X) = PlanetariumDome.capacity dome)
  ∧ (∀ row seat, (row, seat) ∈ seat_grid dome
       ↔ validate_ticket row seat dome error_to_raise = Return tt)
  ∧ (PlanetariumDome.rows dome = 0 ∨ PlanetariumDome.seats_in_row dome = 0 →
     ∀ row seat, raises (validate_ticket row seat dome error_to_raise)).
Proof.
  unfold PositiveIntegerField_accepts. intros Hr%Z.leb_le Hs%Z.leb_le.
  assert (Hgrid : ∀ row seat, (row, seat) ∈ seat_grid dome
            ↔ validate_ticket row seat dome error_to_raise = Return tt).
  { intros. by rewrite seat_grid_spec, validate_ticket_return_iff. }
  split; [|split; [done|]].
  - intros X HX.
    assert (X = seat_grid dome) as ->.
    { apply set_eq. intros [row seat]. by rewrite HX, Hgrid. }
    rewrite seat_grid_size. unfold PlanetariumDome.capacity. lia.
  - intros H0 row seat.
    destruct (validate_ticket row seat dome error_to_raise) as [[]|e] eqn:E;
      [|by exists e].
    apply validate_ticket_return_iff in E. lia.
Qed.

Lemma accepted_pairs_count_is_capacity_witness :
  (∀ X : gset (Z * Z),
     (∀ row seat, (row, seat) ∈ X
        ↔ validate_ticket row seat (PlanetariumDome.mk "Small" 2 3)
            ValidationError_of_dict = Return tt) →
     Z.of_nat (size X) = 6)
  ∧ (∀ row seat, (row, seat) ∈ seat_grid (PlanetariumDome.mk "Small" 2 3)
       ↔ validate_ticket row seat (PlanetariumDome.mk "Small" 2 3)
           ValidationError_of_dict = Return tt)
  ∧ (2 = 0 ∨ 3 = 0 →
     ∀ row seat, raises (validate_ticket row seat
                           (PlanetariumDome.mk "Small" 2 3)
                           ValidationError_of_dict)).
Proof.
  apply (accepted_pairs_count_is_capacity (PlanetariumDome.mk "Small" 2 3)
           ValidationError_of_dict); reflexivity.
Defined.

(** ** Validation reads the store and never writes it *)

Lemma Ticket_clean_fields_eq cf self db :
  Ticket_clean_fields cf self db
  = (if bool_decide (cf self db = ∅) then Return tt
     else Raise (ValidationError (cf self db)), db).
Proof.
  unfold Ticket_clean_fields. unfold_M. by destruct (bool_decide _).
Qed.

Lemma Ticket_clean_readonly self db : (Ticket_clean self db).2 = db.
Proof.
  unfold Ticket_clean. unfold_M.
  destruct (show_sessions db !! _) as [session|]; [|done].
  by destruct (planetarium_domes db !! _).
Qed.

Lemma Ticket_clean_found self db session dome :
  show_sessions db !! Ticket.show_session (Ticket.fields self) = Some session →
  planetarium_domes db !! ShowSession.planetarium_dome session = Some dome →
  Ticket_clean self db
  = (validate_ticket (Ticket.row (Ticket.fields self))
       (Ticket.seat (Ticket.fields self)) dome ValidationError_of_dict, db).
Proof. intros Hs Hd. unfold Ticket_clean. unfold_M. by rewrite Hs, Hd. Qed.

Lemma Ticket_validate_unique_eq self exclude db :
  Ticket_validate_unique self exclude db
  = (if bool_decide (perform_unique_checks self exclude db = ∅) then Return tt
     else Raise (ValidationError (perform_unique_checks self exclude db)), db).
Proof.
  unfold Ticket_validate_unique. unfold_M. by destruct (bool_decide _).
Qed.

Lemma collect_validation_error_readonly c errors db :
  (c db).2 = db → (collect_validation_error c errors db).2 = db.
Proof.
  unfold collect_validation_error. destruct (c db) as [[a|[]] db']; done.
Qed.

Lemma Ticket_full_clean_readonly cf self db :
  (Ticket_full_clean cf self db).2 = db.
Proof.
  unfold Ticket_full_clean. unfold_M.
  pose proof (collect_validation_error_readonly
                (Ticket_clean_fields cf self) ∅ db) as H1.
  destruct (collect_validation_error (Ticket_clean_fields cf self) ∅ db)
    as [[e1|x1] db1]; cbn in H1.
  2:{ apply H1. by rewrite Ticket_clean_fields_eq. }
  rewrite H1 by (by rewrite Ticket_clean_fields_eq).
  pose proof (collect_validation_error_readonly
                (Ticket_clean self) e1 db (Ticket_clean_readonly self db))
    as H2.
  destruct (collect_validation_error (Ticket_clean self) e1 db)
    as [[e2|x2] db2]; cbn in H2; [|done]. subst db2.
  pose proof (collect_validation_error_readonly
                (Ticket_validate_unique self (dom e2 ∖ {[NON_FIELD_ERRORS]}))
                e2 db) as H3.
  destruct (collect_validation_error (Ticket_validate_unique self _) e2 db)
    as [[e3|x3] db3]; cbn in H3.
  2:{ apply H3. by rewrite Ticket_validate_unique_eq. }
  rewrite H3 by (by rewrite Ticket_validate_unique_eq).
  by destruct (bool_decide _).
Qed.


(** ** What full validation raises *)

Lemma update_error_dict_empty_r e : update_error_dict e ∅ = e.
Proof. unfold update_error_dict. by rewrite (left_id ∅ _). Qed.

Lemma update_error_dict_empty_l errors : update_error_dict ∅ errors = errors.
Proof. unfold update_error_dict. by rewrite (right_id ∅ _). Qed.

Lemma update_error_dict_lookup e errors (k : string) :
  update_error_dict e errors !! k
  = union_with (λ old new, Some (old ++ new)%list) (errors !! k) (e !! k).
Proof. unfold update_error_dict. by rewrite lookup_union_with. Qed.

Lemma update_error_dict_nonempty e errors :
  update_error_dict e errors = ∅ → e = ∅ ∧ errors = ∅.
Proof.
  intros H. split; apply map_eq; intros k; rewrite lookup_empty;
    pose proof (f_equal (λ m, m !! k) H) as Hk; cbn in Hk;
    rewrite update_error_dict_lookup, lookup_empty in Hk;
    by destruct (errors !! k), (e !! k).
Qed.

Lemma collect_clean_fields cf self db :
  collect_validation_error (Ticket_clean_fields cf self) ∅ db
  = (Return (cf self db), db).
Proof.
  unfold collect_validation_error. rewrite Ticket_clean_fields_eq.
  case_bool_decide as Hcf; [by rewrite Hcf|].
  by rewrite update_error_dict_empty_r.
Qed.

Lemma collect_validate_unique self exclude errors db :
  collect_validation_error (Ticket_validate_unique self exclude) errors db
  = (Return (update_error_dict (perform_unique_checks self exclude db) errors),
     db).
Proof.
  unfold collect_validation_error. rewrite Ticket_validate_unique_eq.
  case_bool_decide as Hu; [|done].
  by rewrite Hu, update_error_dict_empty_l.
Qed.

Lemma collect_clean self errors db :
  collect_validation_error (Ticket_clean self) errors db
  = match (Ticket_clean self db).1 with
    | Return _ => (Return errors, db)
    | Raise (ValidationError e) => (Return (update_error_dict e errors), db)
    | Raise x => (Raise x, db)
    end.
Proof.
  pose proof (Ticket_clean_readonly self db) as Hro.
  unfold collect_validation_error.
  destruct (Ticket_clean self db) as [[[]|x] db']; cbn in *; subst db';
    [done|]. by destruct x.
Qed.

(** [full_clean] by the outcome of [clean]. *)
Lemma Ticket_full_clean_eq cf self db :
  Ticket_full_clean cf self db
  = match (Ticket_clean self db).1 with
    | Return _ => full_clean_finish self db (cf self db)
    | Raise (ValidationError e) =>
        full_clean_finish self db (update_error_dict e (cf self db))
    | Raise x => (Raise x, db)
    end.
Proof.
  unfold Ticket_full_clean, full_clean_finish.
  unfold mbind, M_bind, bind.
  rewrite collect_clean_fields, collect_clean.
  destruct (Ticket_clean self db).1 as [[]|x].
  - rewrite collect_validate_unique. by case_bool_decide.
  - destruct x; try done.
    rewrite collect_validate_unique. by case_bool_decide.
Qed.

Lemma perform_unique_checks_keys self exclude db (k : string) :
  k ≠ NON_FIELD_ERRORS → k ≠ "id" →
  perform_unique_checks self exclude db !! k = None.
Proof.
  intros Hall Hid. unfold perform_unique_checks.
  repeat
    (match goal with
     | |- context [if ?b then _ else _] => destruct b
     | |- context [match ?o with Some _ => _ | None => _ end] => destruct o
     end);
    rewrite ?lookup_insert_ne, ?lookup_empty by done; done.
Qed.

Lemma perform_unique_checks_excluded self exclude db :
  Exists (λ name, name ∈ exclude) Ticket.unique_together →
  perform_unique_checks self exclude db !! NON_FIELD_ERRORS = None.
Proof.
  intros Hex. unfold perform_unique_checks.
  rewrite (bool_decide_eq_true_2 _ Hex).
  repeat
    (match goal with
     | |- context [if ?b then _ else _] => destruct b
     | |- context [match ?o with Some _ => _ | None => _ end] => destruct o
     end);
    rewrite ?lookup_insert_ne, ?lookup_empty by done; done.
Qed.

Lemma ValidationError_of_dict_singleton (k m : string) :
  ValidationError_of_dict {[ k := m ]} = ValidationError {[ k := [m] ]}.
Proof. unfold ValidationError_of_dict. by rewrite map_fmap_singleton. Qed.

(** [full_clean] when per-field validation passes and [clean] raises the
    error of one field: that error is raised, and no uniqueness error with
    it. *)
Lemma Ticket_full_clean_field_error cf self db (field msg : string) :
  cf self db = ∅ →
  field ∈ Ticket.unique_together →
  Ticket_clean self db = (Raise (ValidationError {[ field := [msg] ]}), db) →
  ∃ errors,
    Ticket_full_clean cf self db = (Raise (ValidationError errors), db)
    ∧ errors !! field = Some [msg]
    ∧ errors !! NON_FIELD_ERRORS = None.
Proof.
  intros Hcf Hfield Hclean.
  assert (field ≠ NON_FIELD_ERRORS ∧ field ≠ "id") as [Hne1 Hne2].
  { unfold Ticket.unique_together in Hfield.
    set_unfold. destruct Hfield as [->|[->|[->|[]]]]; done. }
  rewrite Ticket_full_clean_eq, Hclean, Hcf; cbn.
  rewrite update_error_dict_empty_r. unfold full_clean_finish.
  rewrite dom_singleton_L.
  set (pu := perform_unique_checks self _ db).
  assert (pu !! NON_FIELD_ERRORS = None) as Hall.
  { apply perform_unique_checks_excluded.
    apply Exists_exists. exists field. split; [done|]. set_solver. }
  assert (pu !! field = None) as Hf
    by (by apply perform_unique_checks_keys).
  assert (update_error_dict pu {[field := [msg]]} !! field = Some [msg]) as H1.
  { by rewrite update_error_dict_lookup, Hf, lookup_singleton_eq. }
  case_bool_decide as He.
  { rewrite He, lookup_empty in H1. done. }
  eexists. split; [done|]. split; [done|].
  by rewrite update_error_dict_lookup, Hall, lookup_singleton_ne.
Qed.

(** C3. For a ticket whose session and dome are in the store and whose
    per-field validation passes: when the row is out of range,
    [validate_ticket] raises the error of the one field [row], with the
    message "row number must be in range: (1, rows) → (1, <rows>)"; when the
    row is in range and the seat is not, it raises the error of the one field
    [seat], with the message of the seat; [full_clean] then raises that error
    and reports no uniqueness error, so the uniqueness check comes after both
    range checks: it decides only when both pass. *)
Theorem range_error_names_the_first_field_out_of_range
    (clean_fields : Ticket.instance → DB → gmap string (list string))
    (self : Ticket.instance) (db : DB)
    (session : ShowSession.t) (dome : PlanetariumDome.t) :
  show_sessions db !! Ticket.show_session (Ticket.fields self) = Some session →
  planetarium_domes db !! ShowSession.planetarium_dome session = Some dome →
  clean_fields self db = ∅ →
  let row := Ticket.row (Ticket.fields self) in
  let seat := Ticket.seat (Ticket.fields self) in
  let row_message :=
    "row number must be in range: (1, rows) → (1, "
      +:+ str_int (PlanetariumDome.rows dome) +:+ ")" in
  let seat_message :=
    "seat number must be in range: (1, seats_in_row) → (1, "
      +:+ str_int (PlanetariumDome.seats_in_row dome) +:+ ")" in
  (¬ (1 ≤ row ≤ PlanetariumDome.rows dome) →
     (∀ error_to_raise,
        validate_ticket row seat dome error_to_raise
        = Raise (error_to_raise {[ "row" := row_message ]}))
     ∧ Ticket_clean self db
       = (Raise (ValidationError {[ "row" := [row_message] ]}), db)
     ∧ ∃ errors,
         Ticket_full_clean clean_fields self db
         = (Raise (ValidationError errors), db)
         ∧ errors !! "row" = Some [row_message]
         ∧ errors !! "seat" = None
         ∧ errors !! NON_FIELD_ERRORS = None)
  ∧ (1 ≤ row ≤ PlanetariumDome.rows dome →
     ¬ (1 ≤ seat ≤ PlanetariumDome.seats_in_row dome) →
     (∀ error_to_raise,
        validate_ticket row seat dome error_to_raise
        = Raise (error_to_raise {[ "seat" := seat_message ]}))
     ∧ Ticket_clean self db
       = (Raise (ValidationError {[ "seat" := [seat_message] ]}), db)
     ∧ ∃ errors,
         Ticket_full_clean clean_fields self db
         = (Raise (ValidationError errors), db)
         ∧ errors !! "seat" = Some [seat_message]
         ∧ errors !! "row" = None
         ∧ errors !! NON_FIELD_ERRORS = None)
  ∧ (1 ≤ row ≤ PlanetariumDome.rows dome →
     1 ≤ seat ≤ PlanetariumDome.seats_in_row dome →
     Ticket_clean self db = (Return tt, db)
     ∧ Ticket_full_clean clean_fields self db
       = (if bool_decide (perform_unique_checks self ∅ db = ∅) then Return tt
          else Raise (ValidationError (perform_unique_checks self ∅ db)), db)).
Proof.
  intros Hs Hd Hcf row seat row_message seat_message.
  pose proof (Ticket_clean_found self db session dome Hs Hd) as Hclean.
  fold row seat in Hclean.
  split; [|split].
  - intros Hrow.
    assert (Ticket_clean self db
            = (Raise (ValidationError {[ "row" := [row_message] ]}), db))
      as Hc.
    { rewrite Hclean, (validate_ticket_row_fails _ _ _ _ Hrow).
      by rewrite ValidationError_of_dict_singleton. }
    split; [intros; by apply validate_ticket_row_fails|]. split; [done|].
    destruct (Ticket_full_clean_field_error clean_fields self db
                "row" row_message Hcf) as (errors & He & Hr & Hall);
      [unfold Ticket.unique_together; set_unfold; tauto | done |].
    exists errors. repeat split; try done.
    destruct (errors !! "seat") as [l|] eqn:Hseat; [|done].
    rewrite Ticket_full_clean_eq, Hc, Hcf in He; cbn in He.
    unfold full_clean_finish in He. case_bool_decide; [done|].
    injection He as <-.
    rewrite update_error_dict_lookup, update_error_dict_empty_r in Hseat.
    rewrite lookup_singleton_ne in Hseat by done.
    rewrite perform_unique_checks_keys in Hseat; done.
  - intros Hrow Hseat.
    assert (Ticket_clean self db
            = (Raise (ValidationError {[ "seat" := [seat_message] ]}), db))
      as Hc.
    { rewrite Hclean, (validate_ticket_seat_fails _ _ _ _ Hrow Hseat).
      by rewrite ValidationError_of_dict_singleton. }
    split; [intros; by apply validate_ticket_seat_fails|]. split; [done|].
    destruct (Ticket_full_clean_field_error clean_fields self db
                "seat" seat_message Hcf) as (errors & He & Hes & Hall);
      [unfold Ticket.unique_together; set_unfold; tauto | done |].
    exists errors. repeat split; try done.
    destruct (errors !! "row") as [l|] eqn:Herow; [|done].
    rewrite Ticket_full_clean_eq, Hc, Hcf in He; cbn in He.
    unfold full_clean_finish in He. case_bool_decide; [done|].
    injection He as <-.
    rewrite update_error_dict_lookup, update_error_dict_empty_r in Herow.
    rewrite lookup_singleton_ne in Herow by done.
    rewrite perform_unique_checks_keys in Herow; done.
  - intros Hrow Hseat.
    assert (Ticket_clean self db = (Return tt, db)) as Hc.
    { rewrite Hclean. f_equal. by apply validate_ticket_passes. }
    split; [done|].
    rewrite Ticket_full_clean_eq, Hc, Hcf; cbn. unfold full_clean_finish.
    rewrite update_error_dict_empty_r, dom_empty_L.
    by replace (∅ ∖ {[NON_FIELD_ERRORS]} : gset string) with (∅ : gset string)
      by set_solver.
Qed.

Example sample_db_tickets :
  tickets sample_db = {[ 1 := Ticket.mk 25 25 1 1 ]}.
Proof. vm_compute. reflexivity. Qed.

Lemma range_error_names_the_first_field_out_of_range_witness :
  let self := Ticket.new None true (Ticket.mk 26 1 1 1) in
  let dome := PlanetariumDome.mk "Best" 25 25 in
  show_sessions sample_db !! 1 = Some (ShowSession.mk 1 1 1751893200)
  ∧ planetarium_domes sample_db !! 1 = Some dome
  ∧ related_rows_exist self sample_db = ∅
  ∧ (∀ error_to_raise,
       validate_ticket 26 1 dome error_to_raise
       = Raise (error_to_raise
           {[ "row" := "row number must be in range: (1, rows) → (1, 25)" ]}))
  ∧ Ticket_clean self sample_db
    = (Raise (ValidationError
         {[ "row" := ["row number must be in range: (1, rows) → (1, 25)"] ]}),
       sample_db)
  ∧ ∃ errors,
      Ticket_full_clean related_rows_exist self sample_db
      = (Raise (ValidationError errors), sample_db)
      ∧ errors !! "row"
        = Some ["row number must be in range: (1, rows) → (1, 25)"]
      ∧ errors !! "seat" = None
      ∧ errors !! NON_FIELD_ERRORS = None.
Proof.
  intros self dome.
  assert (H1 : show_sessions sample_db !! 1
               = Some (ShowSession.mk 1 1 1751893200))
    by (vm_compute; reflexivity).
  assert (H2 : planetarium_domes sample_db !! 1 = Some dome)
    by (vm_compute; reflexivity).
  assert (H3 : related_rows_exist self sample_db = ∅)
    by (vm_compute; reflexivity).
  split; [exact H1|]. split; [exact H2|]. split; [exact H3|].
  destruct (range_error_names_the_first_field_out_of_range
              related_rows_exist self sample_db
              (ShowSession.mk 1 1 1751893200) dome H1 H2 H3) as [Hrow _].
  apply Hrow. cbn. lia.
Defined.

(** ** Uniqueness of (show_session, row, seat) *)

Lemma qs_exists_true {A} (qs : gmap Z A) k x :
  qs !! k = Some x → qs_exists qs = true.
Proof.
  intros H. apply bool_decide_eq_true_2. intros ->.
  by rewrite lookup_empty in H.
Qed.

Lemma qs_exists_false {A} (qs : gmap Z A) : qs_exists qs = false → qs = ∅.
Proof.
  unfold qs_exists. intros H%bool_decide_eq_false.
  destruct (decide (qs = ∅)); done.
Qed.

Lemma unique_together_qs_duplicate self db j x :
  tickets db !! j = Some x →
  Ticket.unique_key x = Ticket.unique_key (Ticket.fields self) →
  Ticket.adding self = true ∨ Ticket.pk self ≠ Some j →
  qs_exists (unique_together_qs self db) = true.
Proof.
  intros Hj Hkey Hother. apply (qs_exists_true _ j x).
  unfold unique_together_qs, exclude_self.
  assert (filter (λ kv : Z * Ticket.t,
            Ticket.unique_key kv.2 = Ticket.unique_key (Ticket.fields self))
            (tickets db) !! j = Some x) as Hf
    by (by apply map_lookup_filter_Some).
  destruct (Ticket.pk self) as [k|]; [|done].
  destruct (Ticket.adding self); [done|].
  destruct Hother as [|Hne]; [done|].
  rewrite lookup_delete_ne; [done|]. congruence.
Qed.

Lemma perform_unique_checks_duplicate self exclude db j x :
  tickets db !! j = Some x →
  Ticket.unique_key x = Ticket.unique_key (Ticket.fields self) →
  Ticket.adding self = true ∨ Ticket.pk self ≠ Some j →
  ¬ Exists (λ name, name ∈ exclude) Ticket.unique_together →
  perform_unique_checks self exclude db !! NON_FIELD_ERRORS
  = Some [unique_together_message].
Proof.
  intros Hj Hkey Hother Hex. unfold perform_unique_checks.
  rewrite (bool_decide_eq_false_2 _ Hex).
  rewrite (unique_together_qs_duplicate self db j x Hj Hkey Hother).
  repeat
    (match goal with
     | |- context [if ?b then _ else _] => destruct b
     | |- context [match ?o with Some _ => _ | None => _ end] => destruct o
     end);
    rewrite ?lookup_insert_ne by done; by rewrite lookup_insert_eq.
Qed.

Lemma nothing_excluded :
  ¬ Exists
      (λ name, name ∈ dom (∅ : gmap string (list string))
                        ∖ ({[NON_FIELD_ERRORS]} : gset string))
      Ticket.unique_together.
Proof.
  rewrite dom_empty_L. intros (name & _ & Hin)%Exists_exists.
  apply elem_of_difference in Hin as [Hin _].
  by apply not_elem_of_empty in Hin.
Qed.

Lemma full_clean_finish_duplicate self db errors j x :
  tickets db !! j = Some x →
  Ticket.unique_key x = Ticket.unique_key (Ticket.fields self) →
  Ticket.adding self = true ∨ Ticket.pk self ≠ Some j →
  ∃ errors',
    full_clean_finish self db errors = (Raise (ValidationError errors'), db)
    ∧ (errors = ∅ →
       errors' !! NON_FIELD_ERRORS = Some [unique_together_message]).
Proof.
  intros Hj Hkey Hother. unfold full_clean_finish.
  set (exclude := dom errors ∖ {[NON_FIELD_ERRORS]}).
  case_bool_decide as He.
  - exfalso. apply update_error_dict_nonempty in He as [Hpu ->].
    assert (¬ Exists (λ name, name ∈ exclude) Ticket.unique_together) as Hex
      by (subst exclude; apply nothing_excluded).
    pose proof (perform_unique_checks_duplicate self exclude db j x
                  Hj Hkey Hother Hex) as Hall.
    rewrite Hpu, lookup_empty in Hall. done.
  - eexists. split; [done|]. intros ->.
    rewrite update_error_dict_empty_r.
    apply (perform_unique_checks_duplicate self exclude db j x); try done.
    subst exclude. apply nothing_excluded.
Qed.

Lemma Ticket_save_eq cf self fi fu db :
  Ticket_save cf self fi fu db
  = match (Ticket_full_clean cf self db).1 with
    | Return _ => Model_save self fi fu db
    | Raise e => (Raise e, db)
    end.
Proof.
  pose proof (Ticket_full_clean_readonly cf self db) as Hro.
  unfold Ticket_save. unfold_M.
  destruct (Ticket_full_clean cf self db) as [[[]|e] db'];
    cbn in *; subst db'; done.
Qed.

Lemma Ticket_save_duplicate cf self fi fu db j x :
  tickets db !! j = Some x →
  Ticket.unique_key x = Ticket.unique_key (Ticket.fields self) →
  Ticket.adding self = true ∨ Ticket.pk self ≠ Some j →
  (∃ e, Ticket_save cf self fi fu db = (Raise e, db))
  ∧ (cf self db = ∅ → Ticket_clean self db = (Return tt, db) →
     ∃ errors,
       Ticket_save cf self fi fu db = (Raise (ValidationError errors), db)
       ∧ errors !! NON_FIELD_ERRORS = Some [unique_together_message]).
Proof.
  intros Hj Hkey Hother. rewrite Ticket_save_eq, Ticket_full_clean_eq.
  split.
  - destruct (Ticket_clean self db).1 as [[]|e].
    + destruct (full_clean_finish_duplicate self db (cf self db) j x)
        as (e' & -> & _); eauto.
    + destruct e as [e| | | | |]; cbv beta iota; eauto.
      destruct (full_clean_finish_duplicate self db
                  (update_error_dict e (cf self db)) j x)
        as (e' & -> & _); eauto.
  - intros Hcf ->. cbv beta iota. rewrite Hcf.
    destruct (full_clean_finish_duplicate self db ∅ j x)
      as (e' & -> & Hall); eauto.
Qed.

Lemma tickets_unique_subseteq (m m' : gmap Z Ticket.t) :
  m' ⊆ m → tickets_unique m → tickets_unique m'.
Proof.
  intros Hsub Hu i j x y Hi Hj. apply Hu; by eapply lookup_weaken.
Qed.

Lemma tickets_unique_insert (m : gmap Z Ticket.t) k x :
  tickets_unique m →
  delete k (filter (λ kv : Z * Ticket.t,
                      Ticket.unique_key kv.2 = Ticket.unique_key x) m) = ∅ →
  tickets_unique (<[k:=x]> m).
Proof.
  intros Hu Hnone.
  assert (∀ i y, m !! i = Some y →
                 Ticket.unique_key y = Ticket.unique_key x → i = k) as Hk.
  { intros i y Hi Hy. destruct (decide (i = k)) as [|Hne]; [done|].
    assert (delete k (filter (λ kv : Z * Ticket.t,
              Ticket.unique_key kv.2 = Ticket.unique_key x) m) !! i = Some y)
      as H.
    { rewrite lookup_delete_ne by done. by apply map_lookup_filter_Some. }
    by rewrite Hnone, lookup_empty in H. }
  intros i j y z Hi Hj Hyz.
  destruct (decide (i = k)) as [->|Hik], (decide (j = k)) as [->|Hjk];
    [done|..].
  - rewrite lookup_insert_eq in Hi. rewrite lookup_insert_ne in Hj by done.
    injection Hi as <-. symmetry. by eapply Hk.
  - rewrite lookup_insert_eq in Hj. rewrite lookup_insert_ne in Hi by done.
    injection Hj as <-. by eapply Hk.
  - rewrite lookup_insert_ne in Hi, Hj by done. by eapply Hu.
Qed.

Lemma domes_non_negative_subseteq (m m' : gmap Z PlanetariumDome.t) :
  m' ⊆ m → domes_non_negative m → domes_non_negative m'.
Proof.
  intros Hsub Hm k d Hk. apply (Hm k d). by eapply lookup_weaken.
Qed.

(** The store after a write of a ticket: untouched, or with the row written
    under a key that no other row shares its unique columns with. *)
Lemma write_ticket_outcome k x db :
  (write_ticket k x db).2 = db
  ∨ ((write_ticket k x db).2 = set_tickets (insert k x) db
     ∧ delete k (filter (λ kv : Z * Ticket.t,
                   Ticket.unique_key kv.2 = Ticket.unique_key x) (tickets db))
       = ∅).
Proof.
  unfold write_ticket. unfold_M.
  destruct (qs_exists _) eqn:Hq; [by left|].
  apply qs_exists_false in Hq.
  destruct (negb _); [by left|]. destruct (negb _); [by left|].
  right. done.
Qed.

Lemma get_bind {A} (k : DB → M A) db : (get ≫= k) db = k db db.
Proof. reflexivity. Qed.

Lemma then_mret_state {A B} (c : M A) (v : B) db :
  ((c;; mret v) db).2 = (c db).2.
Proof. unfold_M. by destruct (c db) as [[a|e] db']. Qed.

Lemma Model_save_outcome self fi fu db :
  (Model_save self fi fu db).2 = db
  ∨ ∃ k, (Model_save self fi fu db).2
         = set_tickets (insert k (Ticket.fields self)) db
       ∧ delete k (filter (λ kv : Z * Ticket.t,
                     Ticket.unique_key kv.2
                     = Ticket.unique_key (Ticket.fields self)) (tickets db))
         = ∅.
Proof.
  assert (∀ k,
    ((write_ticket k (Ticket.fields self);;
      mret (Ticket.new (Some k) false (Ticket.fields self))) db).2 = db
    ∨ ∃ k', ((write_ticket k (Ticket.fields self);;
              mret (Ticket.new (Some k) false (Ticket.fields self))) db).2
            = set_tickets (insert k' (Ticket.fields self)) db
          ∧ delete k' (filter (λ kv : Z * Ticket.t,
                         Ticket.unique_key kv.2
                         = Ticket.unique_key (Ticket.fields self))
                         (tickets db))
            = ∅) as Hw.
  { intros k. rewrite then_mret_state.
    destruct (write_ticket_outcome k (Ticket.fields self) db) as [H|[H Hn]];
      [by left|]. right. by exists k. }
  unfold Model_save.
  destruct (fi && fu); [by left|].
  rewrite get_bind.
  destruct (Ticket.pk self) as [k|].
  - case_bool_decide.
    + destruct fi; [by left|]. apply Hw.
    + destruct fu; [by left|]. apply Hw.
  - destruct fu; [by left|]. apply Hw.
Qed.

Lemma Ticket_save_outcome cf self fi fu db :
  (Ticket_save cf self fi fu db).2 = db
  ∨ ∃ k, (Ticket_save cf self fi fu db).2
         = set_tickets (insert k (Ticket.fields self)) db
       ∧ delete k (filter (λ kv : Z * Ticket.t,
                     Ticket.unique_key kv.2
                     = Ticket.unique_key (Ticket.fields self)) (tickets db))
         = ∅.
Proof.
  rewrite Ticket_save_eq.
  destruct (Ticket_full_clean cf self db).1; [|by left].
  apply Model_save_outcome.
Qed.

Lemma write_planetarium_dome_outcome k d db :
  (write_planetarium_dome k d db).2 = db
  ∨ ((write_planetarium_dome k d db).2
       = set_planetarium_domes (insert k d) db
     ∧ 0 ≤ PlanetariumDome.rows d ∧ 0 ≤ PlanetariumDome.seats_in_row d).
Proof.
  unfold write_planetarium_dome, PositiveIntegerField_accepts. unfold_M.
  destruct (0 <=? PlanetariumDome.rows d) eqn:Hr; [|by left].
  destruct (0 <=? PlanetariumDome.seats_in_row d) eqn:Hs; [|by left].
  right. apply Z.leb_le in Hr, Hs. done.
Qed.

(** What one operation does to the ticket table and to the dome table. *)
Lemma exec_tables cf o db :
  (tickets (exec cf o db) ⊆ tickets db
   ∨ ∃ k x, tickets (exec cf o db) = <[k:=x]> (tickets db)
          ∧ delete k (filter (λ kv : Z * Ticket.t,
                        Ticket.unique_key kv.2 = Ticket.unique_key x)
                        (tickets db)) = ∅)
  ∧ (planetarium_domes (exec cf o db) ⊆ planetarium_domes db
     ∨ ∃ k d, planetarium_domes (exec cf o db)
              = <[k:=d]> (planetarium_domes db)
            ∧ 0 ≤ PlanetariumDome.rows d
            ∧ 0 ≤ PlanetariumDome.seats_in_row d).
Proof.
  destruct o; cbn [exec].
  - split; by left.
  - unfold PlanetariumDome_create. rewrite get_bind, then_mret_state.
    destruct (write_planetarium_dome_outcome
                (next_pk (planetarium_domes db)) d db) as [->|(-> & Hr & Hs)];
      split; try (by left).
    right. eauto.
  - unfold PlanetariumDome_save.
    destruct (write_planetarium_dome_outcome k d db) as [->|(-> & Hr & Hs)];
      split; try (by left).
    right. eauto.
  - unfold ShowSession_create. unfold_M.
    repeat (destruct (negb _); [split; by left|]). split; by left.
  - split; by left.
  - destruct (Ticket_save_outcome cf self force_insert force_update db)
      as [->|(k & -> & Hn)]; split; try (by left).
    right. eauto.
  - split; [left; apply delete_subseteq | by left].
  - split; [left; apply map_filter_subseteq | by left].
  - split; [left; apply map_filter_subseteq | by left].
  - split; [left; apply map_filter_subseteq | by left].
  - split; left; [apply map_filter_subseteq | apply delete_subseteq].
Qed.

Lemma exec_preserves_invariants cf o db :
  tickets_unique (tickets db) ∧ domes_non_negative (planetarium_domes db) →
  tickets_unique (tickets (exec cf o db))
  ∧ domes_non_negative (planetarium_domes (exec cf o db)).
Proof.
  intros [Ht Hd].
  destruct (exec_tables cf o db) as [[Hsub|(k & x & -> & Hn)] HD]; split.
  - by eapply tickets_unique_subseteq.
  - destruct HD as [Hs|(k & d & -> & Hr & Hs)].
    + by eapply domes_non_negative_subseteq.
    + by apply map_Forall_insert_2.
  - by apply tickets_unique_insert.
  - destruct HD as [Hs|(k' & d & -> & Hr & Hs)].
    + by eapply domes_non_negative_subseteq.
    + by apply map_Forall_insert_2.
Qed.

Lemma run_preserves_invariants cf history db :
  tickets_unique (tickets db) ∧ domes_non_negative (planetarium_domes db) →
  tickets_unique (tickets (run cf history db))
  ∧ domes_non_negative (planetarium_domes (run cf history db)).
Proof.
  revert db. induction history as [|o history IH]; intros db H; [done|].
  cbn. apply IH. by apply exec_preserves_invariants.
Qed.

Lemma reachable_invariants cf db :
  reachable cf db →
  tickets_unique (tickets db) ∧ domes_non_negative (planetarium_domes db).
Proof.
  intros [history ->]. apply run_preserves_invariants. split.
  - intros i j x y Hi. cbn in Hi. by rewrite lookup_empty in Hi.
  - apply map_Forall_empty.
Qed.

(** C2. No two persisted tickets share (show_session, row, seat).  A save of
    a ticket whose three values are those of another persisted ticket
    raises and leaves the store as it was; when the per-field and range
    validation pass, what it raises is the uniqueness error of
    [unique_together].  And in every store that a history of operations
    builds, two rows of the ticket table with the same three values are the
    same row. *)
Theorem persisted_tickets_are_unique
    (clean_fields : Ticket.instance → DB → gmap string (list string)) :
  (∀ (db : DB) (self : Ticket.instance) (force_insert force_update : bool)
     (j : Z) (other : Ticket.t),
     tickets db !! j = Some other →
     Ticket.unique_key other = Ticket.unique_key (Ticket.fields self) →
     Ticket.adding self = true ∨ Ticket.pk self ≠ Some j →
     (∃ e, Ticket_save clean_fields self force_insert force_update db
           = (Raise e, db))
     ∧ (clean_fields self db = ∅ →
        Ticket_clean self db = (Return tt, db) →
        ∃ errors,
          Ticket_save clean_fields self force_insert force_update db
          = (Raise (ValidationError errors), db)
          ∧ errors !! NON_FIELD_ERRORS = Some [unique_together_message]))
  ∧ (∀ db : DB, reachable clean_fields db → tickets_unique (tickets db)).
Proof.
  split.
  - intros. by eapply Ticket_save_duplicate.
  - intros db Hr. by apply (reachable_invariants clean_fields).
Qed.

(** The scenario of the second ticket for row 25, seat 25 of one session. *)
Lemma persisted_tickets_are_unique_witness :
  let self := Ticket.new None true (Ticket.mk 25 25 1 1) in
  tickets sample_db !! 1 = Some (Ticket.mk 25 25 1 1)
  ∧ related_rows_exist self sample_db = ∅
  ∧ Ticket_clean self sample_db = (Return tt, sample_db)
  ∧ (∃ errors,
       Ticket_save related_rows_exist self false false sample_db
       = (Raise (ValidationError errors), sample_db)
       ∧ errors !! NON_FIELD_ERRORS
         = Some ["Ticket with this Show session, Row and Seat already exists."])
  ∧ tickets_unique (tickets sample_db).
Proof.
  intros self.
  assert (H1 : tickets sample_db !! 1 = Some (Ticket.mk 25 25 1 1))
    by (vm_compute; reflexivity).
  assert (H2 : related_rows_exist self sample_db = ∅)
    by (vm_compute; reflexivity).
  assert (H3 : Ticket_clean self sample_db = (Return tt, sample_db))
    by (vm_compute; reflexivity).
  destruct (persisted_tickets_are_unique related_rows_exist) as [Hdup Hinv].
  split; [exact H1|]. split; [exact H2|]. split; [exact H3|]. split.
  - destruct (Hdup sample_db self false false 1 (Ticket.mk 25 25 1 1) H1
                eq_refl (or_introl eq_refl)) as [_ Hunique].
    exact (Hunique H2 H3).
  - apply Hinv. by exists sample_history.
Defined.

(** ** The dimensions of a stored dome *)

(** C7, as the code has it.  In every store that a history of operations
    builds, every dome has [rows ≥ 0] and [seats_in_row ≥ 0]: the two fields
    are [PositiveIntegerField]s, which hold zero as well as the positive
    integers, and a write of a dome with a negative value is refused. *)
Theorem stored_domes_are_non_negative
    (clean_fields : Ticket.instance → DB → gmap string (list string))
    (db : DB) (k : Z) (dome : PlanetariumDome.t) :
  reachable clean_fields db →
  planetarium_domes db !! k = Some dome →
  0 ≤ PlanetariumDome.rows dome ∧ 0 ≤ PlanetariumDome.seats_in_row dome.
Proof.
  intros Hr Hk.
  destruct (reachable_invariants clean_fields db Hr) as [_ Hd].
  exact (Hd k dome Hk).
Qed.

Lemma stored_domes_are_non_negative_witness :
  reachable related_rows_exist sample_db
  ∧ planetarium_domes sample_db !! 1 = Some (PlanetariumDome.mk "Best" 25 25)
  ∧ 0 ≤ 25 ∧ 0 ≤ 25.
Proof.
  assert (H1 : reachable related_rows_exist sample_db)
    by (by exists sample_history).
  assert (H2 : planetarium_domes sample_db !! 1
               = Some (PlanetariumDome.mk "Best" 25 25))
    by (vm_compute; reflexivity).
  split; [exact H1|]. split; [exact H2|].
  exact (stored_domes_are_non_negative related_rows_exist sample_db 1
           (PlanetariumDome.mk "Best" 25 25) H1 H2).
Defined.

(** A dome of no rows and no seats is created and stored like any other. *)
Lemma dome_with_zero_rows_is_stored :
  let flat := PlanetariumDome.mk "Flat" 0 0 in
  let db := run related_rows_exist [CreateDome flat] empty_db in
  PlanetariumDome_create flat empty_db = (Return 1, db)
  ∧ reachable related_rows_exist db
  ∧ planetarium_domes db !! 1 = Some flat
  ∧ PlanetariumDome.rows flat = 0
  ∧ PlanetariumDome.seats_in_row flat = 0
  ∧ ¬ (1 ≤ PlanetariumDome.rows flat ∧ 1 ≤ PlanetariumDome.seats_in_row flat).
Proof.
  intros flat db. split; [vm_compute; reflexivity|].
  split; [by exists [CreateDome flat]|].
  split; [vm_compute; reflexivity|].
  split; [reflexivity|]. split; [reflexivity|]. cbn. lia.
Qed.

(** ** Cascading deletion *)

Lemma filter_filter_empty {A} (P Q : Z * A → Prop)
    `{!∀ x, Decision (P x)} `{!∀ x, Decision (Q x)} (m : gmap Z A) :
  (∀ x, P x → Q x → False) → filter P (filter Q m) = ∅.
Proof.
  intros HPQ. apply map_empty_filter. intros i x Hix HP.
  apply map_lookup_filter_Some in Hix as [_ HQ]. by eapply HPQ.
Qed.

Lemma sessions_of_show_doomed (k : Z) (sessions : gmap Z ShowSession.t) i x :
  sessions !! i = Some x → ShowSession.astronomy_show x = k →
  i ∈ dom (filter (λ kv : Z * ShowSession.t,
                     ShowSession.astronomy_show kv.2 = k) sessions).
Proof.
  intros Hi Hx. apply elem_of_dom. exists x.
  by apply map_lookup_filter_Some.
Qed.

(** C6. After [reservation.delete()] the reservation is gone and no ticket
    that references it is left, the other tickets being kept as they were;
    after [show.delete()] the show is gone, no session of the show is left,
    and no ticket of a session that the show had is left, the other sessions
    and tickets being kept as they were.  Neither call raises. *)
Theorem deletion_cascades_to_tickets (db : DB) (k : Z) :
  let after_reservation := (Reservation_delete k db).2 in
  let after_show := (AstronomyShow_delete k db).2 in
  let sessions_of_show :=
    filter (λ kv : Z * ShowSession.t, ShowSession.astronomy_show kv.2 = k)
      (show_sessions db) in
  ((Reservation_delete k db).1 = Return tt
   ∧ reservations after_reservation !! k = None
   ∧ filter (λ kv : Z * Ticket.t, Ticket.reservation kv.2 = k)
       (tickets after_reservation) = ∅
   ∧ tickets after_reservation
     = filter (λ kv : Z * Ticket.t, Ticket.reservation kv.2 ≠ k) (tickets db))
  ∧ ((AstronomyShow_delete k db).1 = Return tt
     ∧ astronomy_shows after_show !! k = None
     ∧ filter (λ kv : Z * ShowSession.t, ShowSession.astronomy_show kv.2 = k)
         (show_sessions after_show) = ∅
     ∧ filter (λ kv : Z * Ticket.t,
                 Ticket.show_session kv.2 ∈ dom sessions_of_show)
         (tickets after_show) = ∅
     ∧ show_sessions after_show
       = filter (λ kv : Z * ShowSession.t,
                   ShowSession.astronomy_show kv.2 ≠ k) (show_sessions db)
     ∧ tickets after_show
       = filter (λ kv : Z * Ticket.t,
                   Ticket.show_session kv.2 ∉ dom sessions_of_show)
           (tickets db)).
Proof.
  intros after_reservation after_show sessions_of_show.
  split; [|split; [done|]]; repeat split.
  - apply lookup_delete_eq.
  - apply filter_filter_empty. cbn. intros [i x]; cbn. done.
  - apply lookup_delete_eq.
  - cbn. apply map_empty_filter. intros i x Hix Hx. cbn in Hx.
    apply map_lookup_filter_Some in Hix as [Hi Hnot]. cbn in Hnot.
    apply Hnot. by eapply sessions_of_show_doomed.
  - cbn. apply filter_filter_empty. intros [i x]; cbn. done.
  - cbn. apply map_filter_ext. intros i x Hi. cbn. split.
    + intros Hnot Hx. apply Hnot. by eapply sessions_of_show_doomed.
    + intros Hne [y Hy]%elem_of_dom.
      apply map_lookup_filter_Some in Hy as [Hy Hk]. cbn in Hk.
      rewrite Hi in Hy. injection Hy as <-. done.
Qed.

Example cascade_on_sample_db :
  tickets (AstronomyShow_delete 1 sample_db).2 = ∅
  ∧ show_sessions (AstronomyShow_delete 1 sample_db).2 = ∅
  ∧ tickets (Reservation_delete 1 sample_db).2 = ∅
  ∧ show_sessions (Reservation_delete 1 sample_db).2
    = show_sessions sample_db.
Proof. repeat split; vm_compute; reflexivity. Qed.

(** ** The path of an uploaded image *)

Lemma string_take_drop n s : string_take n s +:+ string_drop n s = s.
Proof.
  revert s. induction n as [|n IH]; intros [|a s]; try done.
  change (String a (string_take n s +:+ string_drop n s) = String a s).
  by rewrite IH.
Qed.

Lemma string_app_empty s : s +:+ EmptyString = s.
Proof.
  induction s as [|a s IH]; [done|].
  change (String a (s +:+ EmptyString) = String a s). by rewrite IH.
Qed.

Lemma rfind_ge c s : -1 ≤ rfind c s.
Proof.
  induction s as [|a s IH]; cbn; [lia|].
  destruct (0 <=? rfind c s) eqn:E; [apply Z.leb_le in E; lia|].
  destruct (Ascii.eqb a c); lia.
Qed.

Lemma rfind_cons_none c a s :
  rfind c (String a s) = -1 ↔ Ascii.eqb a c = false ∧ rfind c s = -1.
Proof.
  cbn. pose proof (rfind_ge c s).
  destruct (0 <=? rfind c s) eqn:E.
  - apply Z.leb_le in E. split; [lia|intros [_ ?]; lia].
  - apply Z.leb_gt in E. destruct (Ascii.eqb a c); split; try done;
      try lia; intros [? ?]; done || lia.
Qed.

Lemma rfind_app_none c s1 s2 :
  rfind c s1 = -1 → rfind c s2 = -1 → rfind c (s1 +:+ s2) = -1.
Proof.
  intros H1 H2. induction s1 as [|a s1 IH]; [done|].
  apply rfind_cons_none in H1 as [Ha H1].
  change (String a s1 +:+ s2) with (String a (s1 +:+ s2)).
  apply rfind_cons_none. split; [done|]. by apply IH.
Qed.

Lemma rfind_app_l c s1 s2 :
  rfind c s2 = -1 → rfind c (s1 +:+ s2) = rfind c s1.
Proof.
  intros H2. induction s1 as [|a s1 IH]; [done|].
  change (String a s1 +:+ s2) with (String a (s1 +:+ s2)).
  cbn. by rewrite IH.
Qed.

Lemma rfind_forallb (f : ascii → bool) c s :
  f c = false → string_forallb f s = true → rfind c s = -1.
Proof.
  intros Hc. induction s as [|a s IH]; [done|]. cbn.
  intros [Ha Hs]%andb_true_iff. apply rfind_cons_none. split; [|by apply IH].
  destruct (Ascii.eqb_spec a c) as [->|]; [congruence|done].
Qed.

Lemma rfind_none_startswith c s : rfind c s = -1 → startswith c s = false.
Proof.
  destruct s as [|a s]; [done|]. by intros [? _]%rfind_cons_none.
Qed.

Lemma rfind_drop c s (n : nat) :
  rfind c s < Z.of_nat n → rfind c (string_drop n s) = -1.
Proof.
  revert n. induction s as [|a s IH]; intros n Hn.
  - by destruct n.
  - destruct n as [|n].
    + pose proof (rfind_ge c (String a s)). cbn [string_drop]. lia.
    + cbn [string_drop]. apply IH. cbn in Hn. pose proof (rfind_ge c s).
      destruct (0 <=? rfind c s) eqn:E; [|apply Z.leb_gt in E]; lia.
Qed.

Lemma splitext_loop_outcome p dotIndex filenameIndex fuel :
  splitext_loop p dotIndex filenameIndex fuel = (p, EmptyString)
  ∨ splitext_loop p dotIndex filenameIndex fuel
    = (string_take dotIndex p, string_drop dotIndex p).
Proof.
  revert filenameIndex. induction fuel as [|fuel IH]; intros i; cbn.
  - by left.
  - case_bool_decide; [by right|apply IH].
Qed.

(** The two parts of [splitext] make up the path again, and the extension
    holds no separator. *)
Lemma splitext_spec p :
  (splitext p).1 +:+ (splitext p).2 = p ∧ rfind sep (splitext p).2 = -1.
Proof.
  unfold splitext.
  destruct (rfind sep p <? rfind extsep p) eqn:E.
  - apply Z.ltb_lt in E.
    destruct (splitext_loop_outcome p (Z.to_nat (rfind extsep p))
                (Z.to_nat (rfind sep p + 1))
                (Z.to_nat (rfind extsep p - (rfind sep p + 1)))) as [->| ->];
      cbn [fst snd].
    + split; [apply string_app_empty|done].
    + split; [apply string_take_drop|]. apply rfind_drop.
      pose proof (rfind_ge sep p). lia.
  - cbn [fst snd]. split; [apply string_app_empty|done].
Qed.

Lemma is_uuid_groups_no_sep groups s :
  is_uuid_groups groups s = true → rfind sep s = -1.
Proof.
  revert s. induction groups as [|n groups IH]; intros s; cbn.
  - intros ->%bool_decide_eq_true. done.
  - destruct groups as [|m groups].
    + intros [H _]%andb_true_iff.
      by apply (rfind_forallb is_lower_hex).
    + intros [[[Hhex _]%andb_true_iff Hdash]%andb_true_iff Hrest]%andb_true_iff.
      rewrite <- (string_take_drop n s). apply rfind_app_none.
      { by apply (rfind_forallb is_lower_hex). }
      apply IH in Hrest.
      assert (string_drop n s
              = String "-"%char (string_drop (S n) s)) as ->.
      { clear -Hdash. revert s Hdash. induction n as [|n IHn]; intros s H.
        - destruct s as [|a s]; [done|]. cbn in *.
          by destruct (Ascii.eqb_spec a "-"%char) as [->|].
        - destruct s as [|a s]; [done|]. cbn in *. by apply IHn. }
      apply rfind_cons_none. done.
Qed.

(** C8. For a show whose title has the slug [slugify title], an uploaded
    file name and the text of the generated identifier, the path returned
    is the upload directory [uploads/movies/] followed by a file name; the
    file name is the slug, a hyphen, the identifier and the extension that
    [os.path.splitext] finds in the uploaded name, with no separator in it,
    so it is the last component of the path. *)
Theorem show_image_file_path_layout (slugify : string → string)
    (instance : AstronomyShow.t) (filename uuid4 : string) :
  is_slug (slugify (AstronomyShow.title instance)) = true →
  is_uuid_str uuid4 = true →
  let extension := (splitext filename).2 in
  let name :=
    slugify (AstronomyShow.title instance) +:+ "-" +:+ uuid4 +:+ extension in
  show_image_file_path slugify instance filename uuid4
  = "uploads/movies/" +:+ name
  ∧ basename (show_image_file_path slugify instance filename uuid4) = name
  ∧ (splitext filename).1 +:+ extension = filename.
Proof.
  intros Hslug Huuid extension name.
  destruct (splitext_spec filename) as [Hparts Hext].
  assert (rfind sep name = -1) as Hname.
  { subst name. apply rfind_app_none.
    - by apply (rfind_forallb is_slug_char).
    - apply rfind_app_none; [done|]. apply rfind_app_none; [|done].
      by apply (is_uuid_groups_no_sep _ _ Huuid). }
  assert (show_image_file_path slugify instance filename uuid4
          = "uploads/movies/" +:+ name) as Hpath.
  { unfold show_image_file_path. fold extension.
    destruct (splitext filename) as [root ext]; cbn in extension.
    subst extension. fold name. unfold join.
    by rewrite (rfind_none_startswith _ _ Hname). }
  split; [done|]. split; [|done].
  rewrite Hpath. unfold basename. rewrite rfind_app_l by done. done.
Qed.

Lemma show_image_file_path_layout_witness :
  is_slug (slugify_ascii "Sample show") = true
  ∧ is_uuid_str "3f2b8c1e-7a4d-4e2b-9c6f-0a1b2c3d4e5f" = true
  ∧ show_image_file_path slugify_ascii
      (AstronomyShow.mk "Sample show" None None) "my photo.JPG"
      "3f2b8c1e-7a4d-4e2b-9c6f-0a1b2c3d4e5f"
    = "uploads/movies/sample-show-3f2b8c1e-7a4d-4e2b-9c6f-0a1b2c3d4e5f.JPG"
  ∧ basename
      (show_image_file_path slugify_ascii
         (AstronomyShow.mk "Sample show" None None) "my photo.JPG"
         "3f2b8c1e-7a4d-4e2b-9c6f-0a1b2c3d4e5f")
    = "sample-show-3f2b8c1e-7a4d-4e2b-9c6f-0a1b2c3d4e5f.JPG"
  ∧ "my photo" +:+ ".JPG" = "my photo.JPG".
Proof.
  split; [reflexivity|]. split; [reflexivity|].
  apply (show_image_file_path_layout slugify_ascii
           (AstronomyShow.mk "Sample show" None None) "my photo.JPG"
           "3f2b8c1e-7a4d-4e2b-9c6f-0a1b2c3d4e5f"); reflexivity.
Defined.

(** ** A validated ticket is persisted *)


Lemma write_ticket_succeeds k x db :
  delete k (filter (λ kv : Z * Ticket.t,
              Ticket.unique_key kv.2 = Ticket.unique_key x) (tickets db)) = ∅ →
  Ticket.show_session x ∈ dom (show_sessions db) →
  Ticket.reservation x ∈ dom (reservations db) →
  write_ticket k x db = (Return tt, set_tickets (insert k x) db).
Proof.
  intros Hu Hs Hr. unfold write_ticket. rewrite get_bind, Hu.
  unfold qs_exists. rewrite bool_decide_eq_false_2 by (by intros []).
  by rewrite !bool_decide_eq_true_2.
Qed.


Example second_ticket_is_persisted :
  Ticket_save related_rows_exist
    (Ticket.new None true (Ticket.mk 24 25 1 1)) false false sample_db
  = (Return (Ticket.new (Some 2) false (Ticket.mk 24 25 1 1)),
     set_tickets (insert 2 (Ticket.mk 24 25 1 1)) sample_db).
Proof. vm_compute. reflexivity. Qed.

Example str_int_examples :
  str_int 25 = "25" ∧ str_int 0 = "0" ∧ str_int (-3) = "-3"
  ∧ str_int 2147483647 = "2147483647".
Proof. repeat split. Qed.

(** ** The ASCII model of slugify yields slugs *)

Lemma lowered_word_is_slug_char (b : ascii) :
  is_word (ascii_lower b) = true → is_slug_char (ascii_lower b) = true.
Proof.
  destruct b as [[] [] [] [] [] [] [] []]; vm_compute; congruence.
Qed.

Lemma string_forallb_of_list (f : ascii → bool) (l : list ascii) :
  string_forallb f (string_of_list_ascii l) = forallb f l.
Proof. induction l as [|a l IH]; cbn; [done|]. by rewrite IH. Qed.

Lemma collapse_runs_slug in_run (l : list ascii) :
  Forall (λ a, is_hyphen a || is_space a || is_slug_char a = true) l →
  Forall (λ a, is_slug_char a = true) (collapse_runs in_run l).
Proof.
  intros H. revert in_run.
  induction H as [|a l Ha H IH]; intros in_run; cbn [collapse_runs].
  - constructor.
  - destruct (is_hyphen a || is_space a) eqn:E.
    + destruct in_run; [apply IH|]. constructor; [done|apply IH].
    + constructor; [done|apply IH].
Qed.

Lemma lstrip_chars_Forall (P : ascii → Prop) f (l : list ascii) :
  Forall P l → Forall P (lstrip_chars f l).
Proof.
  induction 1 as [|a l Ha H IH]; cbn; [constructor|].
  destruct (f a); [done|by constructor].
Qed.

Lemma strip_chars_Forall (P : ascii → Prop) f (l : list ascii) :
  Forall P l → Forall P (strip_chars f l).
Proof.
  intros H. unfold strip_chars.
  apply Forall_rev, lstrip_chars_Forall, Forall_rev.
  by apply lstrip_chars_Forall.
Qed.

(** Whatever the title, the ASCII model of [slugify] returns a slug. *)
Lemma slugify_ascii_is_slug (value : string) :
  is_slug (slugify_ascii value) = true.
Proof.
  unfold is_slug, slugify_ascii. rewrite string_forallb_of_list.
  apply forallb_forall. intros a Ha. revert a Ha.
  apply List.Forall_forall, strip_chars_Forall, collapse_runs_slug.
  apply List.Forall_forall. intros a [Hin Hkeep]%filter_In.
  apply in_map_iff in Hin as (b & <- & _).
  destruct (is_hyphen (ascii_lower b)); [done|].
  destruct (is_space (ascii_lower b)); [done|]. cbn.
  apply lowered_word_is_slug_char.
  by rewrite !orb_false_r in Hkeep.
Qed.

Example slugify_ascii_examples :
  slugify_ascii "Sample show" = "sample-show"
  ∧ slugify_ascii "  The _Best_  Show -- ever!_" = "the-_best_-show-ever"
  ∧ slugify_ascii "!!!" = "".
Proof. repeat split. Qed.

Example splitext_examples :
  splitext "photo.tar.gz" = ("photo.tar", ".gz")
  ∧ splitext ".bashrc" = (".bashrc", "")
  ∧ splitext "a/b.c/d" = ("a/b.c/d", "")
  ∧ splitext "a/...x.jpg" = ("a/...x", ".jpg")
  ∧ splitext "x." = ("x", ".").
Proof. repeat split. Qed.

(** * Further properties of the models *)

(** ** Deleting a session or a dome *)



Lemma sessions_of_dome_doomed (k : Z) (sessions : gmap Z ShowSession.t) i x :
  sessions !! i = Some x → ShowSession.planetarium_dome x = k →
  i ∈ dom (filter (λ kv : Z * ShowSession.t,
                     ShowSession.planetarium_dome kv.2 = k) sessions).
Proof.
  intros Hi Hx. apply elem_of_dom. exists x.
  by apply map_lookup_filter_Some.
Qed.


(** ** A ticket for a session that is not there *)

(** X3. [clean] reaches the dome through [self.show_session]; when the
    store has no such session the lookup raises [DoesNotExist], which is no
    [ValidationError]: [full_clean] lets it through whatever the per-field
    validation found, and [save] raises it with the store untouched.  The
    same holds when the session is there and its dome is not. *)
Theorem save_for_missing_session_raises_does_not_exist
    (clean_fields : Ticket.instance → DB → gmap string (list string))
    (self : Ticket.instance) (force_insert force_update : bool) (db : DB) :
  (show_sessions db !! Ticket.show_session (Ticket.fields self) = None →
   Ticket_clean self db = (Raise (ObjectDoesNotExist "ShowSession"), db)
   ∧ Ticket_full_clean clean_fields self db
     = (Raise (ObjectDoesNotExist "ShowSession"), db)
   ∧ Ticket_save clean_fields self force_insert force_update db
     = (Raise (ObjectDoesNotExist "ShowSession"), db))
  ∧ (∀ session,
       show_sessions db !! Ticket.show_session (Ticket.fields self)
       = Some session →
       planetarium_domes db !! ShowSession.planetarium_dome session = None →
       Ticket_clean self db
       = (Raise (ObjectDoesNotExist "PlanetariumDome"), db)
       ∧ Ticket_save clean_fields self force_insert force_update db
         = (Raise (ObjectDoesNotExist "PlanetariumDome"), db)).
Proof.
  split.
  - intros Hs.
    assert (Ticket_clean self db
            = (Raise (ObjectDoesNotExist "ShowSession"), db)) as Hc.
    { unfold Ticket_clean. rewrite get_bind. by rewrite Hs. }
    assert (Ticket_full_clean clean_fields self db
            = (Raise (ObjectDoesNotExist "ShowSession"), db)) as Hf.
    { by rewrite Ticket_full_clean_eq, Hc. }
    split; [done|]. split; [done|]. by rewrite Ticket_save_eq, Hf.
  - intros session Hs Hd.
    assert (Ticket_clean self db
            = (Raise (ObjectDoesNotExist "PlanetariumDome"), db)) as Hc.
    { unfold Ticket_clean. rewrite get_bind. by rewrite Hs, Hd. }
    split; [done|].
    by rewrite Ticket_save_eq, Ticket_full_clean_eq, Hc.
Qed.

Lemma save_for_missing_session_raises_does_not_exist_witness :
  let self := Ticket.new None true (Ticket.mk 1 1 7 1) in
  show_sessions sample_db !! 7 = None
  ∧ related_rows_exist self sample_db ≠ ∅
  ∧ Ticket_save related_rows_exist self false false sample_db
    = (Raise (ObjectDoesNotExist "ShowSession"), sample_db).
Proof.
  intros self.
  assert (H : show_sessions sample_db !! 7 = None)
    by (vm_compute; reflexivity).
  split; [exact H|]. split.
  { intros He. apply (f_equal (λ m, m !! "show_session")) in He.
    vm_compute in He. discriminate He. }
  destruct (save_for_missing_session_raises_does_not_exist
              related_rows_exist self false false sample_db) as [Hmiss _].
  exact (proj2 (proj2 (Hmiss H))).
Defined.

(** ** Booking a seat twice, and saving a ticket again *)

Lemma write_ticket_cases k x db :
  write_ticket k x db = (Return tt, set_tickets (insert k x) db)
  ∨ ∃ e, write_ticket k x db = (Raise e, db).
Proof.
  unfold write_ticket. rewrite get_bind.
  destruct (qs_exists _); [right; by eexists|].
  destruct (negb _); [right; by eexists|].
  destruct (negb _); [right; by eexists|]. by left.
Qed.

Lemma Model_save_returns self fi fu db inst db' :
  Model_save self fi fu db = (Return inst, db') →
  ∃ k, inst = Ticket.new (Some k) false (Ticket.fields self)
       ∧ db' = set_tickets (insert k (Ticket.fields self)) db.
Proof.
  assert (∀ k,
    (write_ticket k (Ticket.fields self);;
     mret (Ticket.new (Some k) false (Ticket.fields self))) db
    = (Return inst, db') →
    ∃ k, inst = Ticket.new (Some k) false (Ticket.fields self)
         ∧ db' = set_tickets (insert k (Ticket.fields self)) db) as Hw.
  { intros k. unfold mbind, M_bind, bind.
    destruct (write_ticket_cases k (Ticket.fields self) db) as [->|[e ->]];
      [|done].
    intros [= <- <-]. eauto. }
  unfold Model_save. destruct (fi && fu); [done|]. rewrite get_bind.
  destruct (Ticket.pk self) as [k|].
  - case_bool_decide.
    + destruct fi; [done|]. apply Hw.
    + destruct fu; [done|]. apply Hw.
  - destruct fu; [done|]. apply Hw.
Qed.

Lemma Ticket_save_returns cf self fi fu db inst db' :
  Ticket_save cf self fi fu db = (Return inst, db') →
  Ticket_full_clean cf self db = (Return tt, db)
  ∧ ∃ k, inst = Ticket.new (Some k) false (Ticket.fields self)
         ∧ db' = set_tickets (insert k (Ticket.fields self)) db.
Proof.
  rewrite Ticket_save_eq.
  pose proof (Ticket_full_clean_readonly cf self db) as Hro.
  destruct (Ticket_full_clean cf self db) as [[[]|e] db1]; cbn in *;
    subst db1; [|done].
  intros H. split; [done|]. by eapply Model_save_returns.
Qed.

(** X4. Booking a seat twice.  Once a save has returned, the row of the
    ticket is in the store under the key the object came back with; a save
    of any object that is being added with the same session, row and seat
    then raises and leaves the store as the first save left it, and when the
    per-field and range validation of the second pass, what it raises is the
    uniqueness error. *)
Theorem second_booking_of_a_seat_is_refused
    (clean_fields : Ticket.instance → DB → gmap string (list string))
    (first second : Ticket.instance) (fi fu fi' fu' : bool)
    (db db' : DB) (saved : Ticket.instance) :
  Ticket_save clean_fields first fi fu db = (Return saved, db') →
  Ticket.adding second = true →
  Ticket.unique_key (Ticket.fields second)
  = Ticket.unique_key (Ticket.fields first) →
  (∃ k, Ticket.pk saved = Some k
        ∧ tickets db' !! k = Some (Ticket.fields first))
  ∧ (∃ e, Ticket_save clean_fields second fi' fu' db' = (Raise e, db'))
  ∧ (clean_fields second db' = ∅ →
     Ticket_clean second db' = (Return tt, db') →
     ∃ errors,
       Ticket_save clean_fields second fi' fu' db'
       = (Raise (ValidationError errors), db')
       ∧ errors !! NON_FIELD_ERRORS = Some [unique_together_message]).
Proof.
  intros Hsave Hadd Hkey.
  apply Ticket_save_returns in Hsave as (_ & k & -> & ->).
  assert (tickets (set_tickets (insert k (Ticket.fields first)) db) !! k
          = Some (Ticket.fields first)) as Hk
    by (cbn; apply lookup_insert_eq).
  split; [by exists k|].
  apply (Ticket_save_duplicate clean_fields second fi' fu' _ k
           (Ticket.fields first)); [done|done|by left].
Qed.

Lemma second_booking_of_a_seat_is_refused_witness :
  let first := Ticket.new None true (Ticket.mk 3 4 1 1) in
  let second := Ticket.new None true (Ticket.mk 3 4 1 1) in
  let db' := set_tickets (insert 2 (Ticket.mk 3 4 1 1)) sample_db in
  Ticket_save related_rows_exist first false false sample_db
  = (Return (Ticket.new (Some 2) false (Ticket.mk 3 4 1 1)), db')
  ∧ (∃ k, Some 2 = Some k ∧ tickets db' !! k = Some (Ticket.mk 3 4 1 1))
  ∧ (∃ e, Ticket_save related_rows_exist second false false db'
          = (Raise e, db')).
Proof.
  intros first second db'.
  assert (H : Ticket_save related_rows_exist first false false sample_db
              = (Return (Ticket.new (Some 2) false (Ticket.mk 3 4 1 1)), db'))
    by (vm_compute; reflexivity).
  split; [exact H|].
  destruct (second_booking_of_a_seat_is_refused related_rows_exist
              first second false false false false sample_db db'
              (Ticket.new (Some 2) false (Ticket.mk 3 4 1 1))
              H eq_refl eq_refl) as (H1 & H2 & _).
  split; [exact H1|exact H2].
Defined.

Lemma set_tickets_insert_same k x db :
  tickets db !! k = Some x → set_tickets (insert k x) db = db.
Proof.
  intros H. destruct db as [th sh jt dm ss rs ts]. cbn in *.
  unfold set_tickets. cbn. by rewrite insert_id.
Qed.

(** X5. Saving a stored ticket again, unchanged.  For an object loaded from
    the store (not being added, with the key of its row), in a store whose
    tickets are unique, whose per-field and range validation pass and whose
    reservation is there, [save] with the default arguments returns the
    object and the store is exactly as before: the uniqueness check leaves
    the row of the object itself out. *)
Theorem saving_a_stored_ticket_again_changes_nothing
    (clean_fields : Ticket.instance → DB → gmap string (list string))
    (db : DB) (k : Z) (x : Ticket.t) :
  let self := Ticket.new (Some k) false x in
  tickets_unique (tickets db) →
  tickets db !! k = Some x →
  clean_fields self db = ∅ →
  Ticket_clean self db = (Return tt, db) →
  Ticket.reservation x ∈ dom (reservations db) →
  Ticket_full_clean clean_fields self db = (Return tt, db)
  ∧ Ticket_save clean_fields self false false db = (Return self, db).
Proof.
  intros self Hu Hk Hcf Hclean Hres.
  assert (delete k (filter (λ kv : Z * Ticket.t,
            Ticket.unique_key kv.2 = Ticket.unique_key x) (tickets db)) = ∅)
    as Hqs.
  { apply map_eq. intros i. rewrite lookup_empty.
    destruct (decide (i = k)) as [->|Hne]; [apply lookup_delete_eq|].
    rewrite lookup_delete_ne by done.
    apply map_lookup_filter_None. right. intros y Hy Hkey. cbn in Hkey.
    apply Hne. by apply (Hu i k y x). }
  assert (perform_unique_checks self ∅ db = ∅) as Hpu.
  { unfold perform_unique_checks.
    rewrite (bool_decide_eq_false_2 (Exists _ _)).
    2:{ intros (name & _ & Hin)%Exists_exists.
        by apply not_elem_of_empty in Hin. }
    unfold unique_together_qs, exclude_self. cbn.
    rewrite Hqs. unfold qs_exists.
    rewrite (bool_decide_eq_false_2 (_ ≠ _)) by (intros H; by apply H).
    by rewrite orb_true_r. }
  assert (Ticket_full_clean clean_fields self db = (Return tt, db)) as Hfc.
  { rewrite Ticket_full_clean_eq, Hclean, Hcf. cbn.
    unfold full_clean_finish. rewrite dom_empty_L.
    replace (∅ ∖ {[NON_FIELD_ERRORS]} : gset string) with (∅ : gset string)
      by set_solver.
    rewrite Hpu, update_error_dict_empty_l.
    by rewrite bool_decide_eq_true_2. }
  split; [done|].
  assert (Ticket.show_session x ∈ dom (show_sessions db)) as Hs.
  { unfold Ticket_clean in Hclean. rewrite get_bind in Hclean. cbn in Hclean.
    apply elem_of_dom.
    destruct (show_sessions db !! Ticket.show_session x); [eauto|done]. }
  rewrite Ticket_save_eq, Hfc. cbn [fst].
  unfold Model_save. cbn [andb]. rewrite get_bind. cbn [Ticket.pk self].
  rewrite bool_decide_eq_true_2 by (apply elem_of_dom; eauto).
  unfold mbind, M_bind, bind. cbn [Ticket.fields self].
  rewrite write_ticket_succeeds by done.
  by rewrite set_tickets_insert_same.
Qed.

Lemma saving_a_stored_ticket_again_changes_nothing_witness :
  let self := Ticket.new (Some 1) false (Ticket.mk 25 25 1 1) in
  tickets_unique (tickets sample_db)
  ∧ tickets sample_db !! 1 = Some (Ticket.mk 25 25 1 1)
  ∧ related_rows_exist self sample_db = ∅
  ∧ Ticket_clean self sample_db = (Return tt, sample_db)
  ∧ 1 ∈ dom (reservations sample_db)
  ∧ Ticket_save related_rows_exist self false false sample_db
    = (Return self, sample_db).
Proof.
  intros self.
  assert (H0 : tickets_unique (tickets sample_db)).
  { apply (reachable_invariants related_rows_exist).
    by exists sample_history. }
  assert (H1 : tickets sample_db !! 1 = Some (Ticket.mk 25 25 1 1))
    by (vm_compute; reflexivity).
  assert (H2 : related_rows_exist self sample_db = ∅)
    by (vm_compute; reflexivity).
  assert (H3 : Ticket_clean self sample_db = (Return tt, sample_db))
    by (vm_compute; reflexivity).
  assert (H4 : 1 ∈ dom (reservations sample_db))
    by (apply elem_of_dom; eexists; vm_compute; reflexivity).
  split; [exact H0|]. split; [exact H1|]. split; [exact H2|].
  split; [exact H3|]. split; [exact H4|].
  exact (proj2 (saving_a_stored_ticket_again_changes_nothing
                  related_rows_exist sample_db 1 (Ticket.mk 25 25 1 1)
                  H0 H1 H2 H3 H4)).
Defined.

(** ** What an operation leaves in the store *)



Lemma write_ticket_state k x db :
  (write_ticket k x db).2 = db
  ∨ ((write_ticket k x db).2 = set_tickets (insert k x) db
     ∧ Ticket.show_session x ∈ dom (show_sessions db)
     ∧ Ticket.reservation x ∈ dom (reservations db)).
Proof.
  unfold write_ticket. rewrite get_bind.
  destruct (qs_exists _); [by left|].
  case_bool_decide; [|by left]. case_bool_decide; [|by left].
  right. done.
Qed.

Lemma Model_save_state self fi fu db :
  (Model_save self fi fu db).2 = db
  ∨ ∃ k, (Model_save self fi fu db).2
         = set_tickets (insert k (Ticket.fields self)) db
       ∧ Ticket.show_session (Ticket.fields self) ∈ dom (show_sessions db)
       ∧ Ticket.reservation (Ticket.fields self) ∈ dom (reservations db).
Proof.
  assert (∀ k,
    ((write_ticket k (Ticket.fields self);;
      mret (Ticket.new (Some k) false (Ticket.fields self))) db).2 = db
    ∨ ∃ k', ((write_ticket k (Ticket.fields self);;
              mret (Ticket.new (Some k) false (Ticket.fields self))) db).2
            = set_tickets (insert k' (Ticket.fields self)) db
          ∧ Ticket.show_session (Ticket.fields self) ∈ dom (show_sessions db)
          ∧ Ticket.reservation (Ticket.fields self) ∈ dom (reservations db))
    as Hw.
  { intros k. rewrite then_mret_state.
    destruct (write_ticket_state k (Ticket.fields self) db) as [H|H];
      [by left|]. right. by exists k. }
  unfold Model_save.
  destruct (fi && fu); [by left|].
  rewrite get_bind.
  destruct (Ticket.pk self) as [k|].
  - case_bool_decide.
    + destruct fi; [by left|]. apply Hw.
    + destruct fu; [by left|]. apply Hw.
  - destruct fu; [by left|]. apply Hw.
Qed.

(** The store after [Ticket.save]: untouched, or with the row of the object
    written, which takes that full validation passed and that the session
    and the reservation of the ticket are there. *)
Lemma Ticket_save_state cf self fi fu db :
  (Ticket_save cf self fi fu db).2 = db
  ∨ ∃ k, (Ticket_save cf self fi fu db).2
         = set_tickets (insert k (Ticket.fields self)) db
       ∧ Ticket_full_clean cf self db = (Return tt, db)
       ∧ Ticket.show_session (Ticket.fields self) ∈ dom (show_sessions db)
       ∧ Ticket.reservation (Ticket.fields self) ∈ dom (reservations db).
Proof.
  rewrite Ticket_save_eq.
  pose proof (Ticket_full_clean_readonly cf self db) as Hro.
  destruct (Ticket_full_clean cf self db) as [[[]|e] db1]; cbn in *;
    subst db1; [|by left].
  destruct (Model_save_state self fi fu db) as [H|(k & H & Hs & Hr)];
    [by left|]. right. by exists k.
Qed.




(** ** Foreign keys always point to stored rows *)

Lemma PlanetariumDome_write_dom k d db :
  dom (planetarium_domes db)
  ⊆ dom (planetarium_domes (write_planetarium_dome k d db).2)
  ∧ show_sessions (write_planetarium_dome k d db).2 = show_sessions db
  ∧ tickets (write_planetarium_dome k d db).2 = tickets db
  ∧ reservations (write_planetarium_dome k d db).2 = reservations db
  ∧ astronomy_shows (write_planetarium_dome k d db).2 = astronomy_shows db.
Proof.
  destruct (write_planetarium_dome_outcome k d db) as [->|[-> _]];
    [done|]. cbn. split; [|done]. intros a Ha. rewrite dom_insert_L.
  by apply elem_of_union_r.
Qed.

Lemma ShowSession_create_state x db :
  (ShowSession_create x db).2 = db
  ∨ ((ShowSession_create x db).2
       = set_show_sessions (insert (next_pk (show_sessions db)) x) db
     ∧ ShowSession.astronomy_show x ∈ dom (astronomy_shows db)
     ∧ ShowSession.planetarium_dome x ∈ dom (planetarium_domes db)).
Proof.
  unfold ShowSession_create. rewrite get_bind.
  case_bool_decide; [|by left]. case_bool_decide; [|by left]. by right.
Qed.

Lemma dom_insert_mono {A} (m : gmap Z A) (a k : Z) (x : A) :
  a ∈ dom m → a ∈ dom (<[k:=x]> m).
Proof. intros H. rewrite dom_insert_L. by apply elem_of_union_r. Qed.

Lemma exec_preserves_referential_integrity cf o db :
  referential_integrity db → referential_integrity (exec cf o db).
Proof.
  intros [Ht Hs]. destruct o; cbn [exec].
  - (* CreateShow *)
    change (AstronomyShow_create x db).2
      with (set_astronomy_shows
              (insert (next_pk (astronomy_shows db)) x) db).
    split; [exact Ht|]. intros k s Hk. destruct (Hs k s Hk) as [Ha Hd].
    split; [|done]. cbn. by apply dom_insert_mono.
  - (* CreateDome *)
    unfold PlanetariumDome_create. rewrite get_bind, then_mret_state.
    destruct (PlanetariumDome_write_dom (next_pk (planetarium_domes db)) d db)
      as (Hdom & E1 & E2 & E3 & E4).
    unfold referential_integrity. rewrite E1, E2, E3, E4.
    split; [exact Ht|]. intros k s Hk. destruct (Hs k s Hk) as [Ha Hd].
    split; [done|]. by apply Hdom.
  - (* SaveDome *)
    unfold PlanetariumDome_save.
    destruct (PlanetariumDome_write_dom k d db)
      as (Hdom & E1 & E2 & E3 & E4).
    unfold referential_integrity. rewrite E1, E2, E3, E4.
    split; [exact Ht|]. intros k' s Hk. destruct (Hs k' s Hk) as [Ha Hd].
    split; [done|]. by apply Hdom.
  - (* CreateSession *)
    destruct (ShowSession_create_state x db) as [->|(-> & Ha & Hd)]; [done|].
    split; cbn.
    + intros k t Hk. destruct (Ht k t Hk) as [H1 H2]. split; [|done].
      by apply dom_insert_mono.
    + intros k s. destruct (decide (k = next_pk (show_sessions db))) as [->|].
      * rewrite lookup_insert_eq. by intros [= <-].
      * rewrite lookup_insert_ne by done. apply Hs.
  - (* CreateReservation *)
    change (Reservation_create x db).2
      with (set_reservations (insert (next_pk (reservations db)) x) db).
    split; [|exact Hs]. intros k t Hk. destruct (Ht k t Hk) as [H1 H2].
    split; [done|]. cbn. by apply dom_insert_mono.
  - (* SaveTicket *)
    destruct (Ticket_save_state cf self force_insert force_update db)
      as [->|(k & -> & _ & H1 & H2)]; [done|].
    split; [|exact Hs]. intros k' t. cbn.
    destruct (decide (k' = k)) as [->|].
    + rewrite lookup_insert_eq. by intros [= <-].
    + rewrite lookup_insert_ne by done. apply Ht.
  - (* DeleteTicket *)
    split; [|exact Hs]. intros k' t Hk. cbn in Hk.
    apply lookup_delete_Some in Hk as [_ Hk]. by apply (Ht k' t).
  - (* DeleteReservation *)
    split; [|exact Hs]. intros k' t Hk. cbn in Hk.
    apply map_lookup_filter_Some in Hk as [Hk Hne]. cbn in Hne.
    destruct (Ht k' t Hk) as [H1 H2]. split; [done|]. cbn.
    rewrite dom_delete_L. apply elem_of_difference. split; [done|].
    by intros ?%elem_of_singleton.
  - (* DeleteSession *)
    cbn. split.
    + intros k' t Hk.
      apply map_lookup_filter_Some in Hk as [Hk Hne]. cbn in Hne.
      destruct (Ht k' t Hk) as [H1 H2]. split; [|done].
      apply elem_of_dom in H1 as [s Hsk]. apply elem_of_dom. exists s.
      by apply map_lookup_filter_Some.
    + intros k' s Hk.
      apply map_lookup_filter_Some in Hk as [Hk _]. by apply (Hs k' s).
  - (* DeleteShow *)
    cbn. split.
    + intros k' t Hk.
      apply map_lookup_filter_Some in Hk as [Hk Hne]. cbn in Hne.
      destruct (Ht k' t Hk) as [H1 H2]. split; [|done].
      apply elem_of_dom in H1 as [s Hsk]. apply elem_of_dom. exists s.
      by apply map_lookup_filter_Some.
    + intros k' s Hk.
      apply map_lookup_filter_Some in Hk as [Hk Hne]. cbn in Hne.
      destruct (Hs k' s Hk) as [H1 H2]. split; [|done].
      cbn.
      apply elem_of_dom. rewrite lookup_delete_ne; [by apply elem_of_dom|].
      intros Heq. apply Hne. by eapply sessions_of_show_doomed.
  - (* DeleteDome *)
    cbn. split.
    + intros k' t Hk.
      apply map_lookup_filter_Some in Hk as [Hk Hne]. cbn in Hne.
      destruct (Ht k' t Hk) as [H1 H2]. split; [|done].
      apply elem_of_dom in H1 as [s Hsk]. apply elem_of_dom. exists s.
      by apply map_lookup_filter_Some.
    + intros k' s Hk.
      apply map_lookup_filter_Some in Hk as [Hk Hne]. cbn in Hne.
      destruct (Hs k' s Hk) as [H1 H2]. split; [done|]. cbn.
      apply elem_of_dom. rewrite lookup_delete_ne; [by apply elem_of_dom|].
      intros Heq. apply Hne. by eapply sessions_of_dome_doomed.
Qed.

Lemma foreign_keys_hold cf history :
  referential_integrity (run cf history empty_db).
Proof.
  assert (∀ db0, referential_integrity db0 →
            referential_integrity (run cf history db0)) as Hrun.
  { induction history as [|o history IH]; intros db0 H0; [done|].
    cbn. apply IH. by apply exec_preserves_referential_integrity. }
  apply Hrun. split; intros k x Hk; cbn in Hk;
    by rewrite lookup_empty in Hk.
Qed.

(** X6. In every store that a history of operations builds, each ticket's
    session and reservation are stored rows, and each session's show and
    dome are stored rows: the writes check the foreign keys and the deletes
    cascade, so no operation leaves a dangling reference. *)
Theorem foreign_keys_point_to_stored_rows
    (clean_fields : Ticket.instance → DB → gmap string (list string))
    (history : list op) :
  let db := run clean_fields history empty_db in
  (∀ k x, tickets db !! k = Some x →
     is_Some (show_sessions db !! Ticket.show_session x)
     ∧ is_Some (reservations db !! Ticket.reservation x))
  ∧ (∀ k s, show_sessions db !! k = Some s →
       is_Some (astronomy_shows db !! ShowSession.astronomy_show s)
       ∧ is_Some (planetarium_domes db !! ShowSession.planetarium_dome s)).
Proof.
  intros db.
  assert (referential_integrity db) as [Ht Hs].
  { subst db.
    assert (∀ db0, referential_integrity db0 →
              referential_integrity (run clean_fields history db0)) as Hrun.
    { induction history as [|o history IH]; intros db0 H0; [done|].
      cbn. apply IH. by apply exec_preserves_referential_integrity. }
    apply Hrun. split; intros k x Hk; cbn in Hk;
      by rewrite lookup_empty in Hk. }
  split.
  - intros k x Hk. destruct (Ht k x Hk). by rewrite <- !elem_of_dom.
  - intros k s Hk. destruct (Hs k s Hk). by rewrite <- !elem_of_dom.
Qed.

(** ** Stored tickets lie in the grid of their dome *)








(** ** A session is never overbooked *)

Lemma run_from_empty_invariants cf history :
  tickets_unique (tickets (run cf history empty_db))
  ∧ domes_non_negative (planetarium_domes (run cf history empty_db)).
Proof. apply (reachable_invariants cf). by exists history. Qed.



(** ** A free seat of the grid can be booked *)



(** ** More on the path of an uploaded image *)

Lemma string_app_cons a s1 s2 : String a s1 +:+ s2 = String a (s1 +:+ s2).
Proof. reflexivity. Qed.

Lemma string_app_inv_head s a b : s +:+ a = s +:+ b → a = b.
Proof.
  induction s as [|c s IH]; [done|].
  rewrite !string_app_cons. intros [= H]. by apply IH.
Qed.

Lemma string_app_inv_length a b c d :
  String.length a = String.length b → a +:+ c = b +:+ d → a = b ∧ c = d.
Proof.
  revert b. induction a as [|x a IH]; intros [|y b]; cbn; try done.
  intros [= Hlen]. rewrite !string_app_cons. intros [= -> H].
  destruct (IH b Hlen H) as [-> ->]. done.
Qed.

Lemma string_length_app a b :
  String.length (a +:+ b) = (String.length a + String.length b)%nat.
Proof.
  induction a as [|x a IH]; [done|]. rewrite string_app_cons. cbn.
  by rewrite IH.
Qed.

Lemma startswith_string_drop c n s :
  startswith c (string_drop n s) = true →
  string_drop n s = String c (string_drop (S n) s).
Proof.
  revert s. induction n as [|n IH]; intros [|a s]; try done.
  - cbn. by destruct (Ascii.eqb_spec a c) as [->|].
  - intros H. by apply IH.
Qed.

(** The length of a text of hexadecimal groups joined by hyphens. *)
Lemma is_uuid_groups_length groups s :
  is_uuid_groups groups s = true →
  String.length s
  = (list_sum groups + pred (List.length groups))%nat.
Proof.
  revert s. induction groups as [|n groups IH]; intros s.
  - cbn. intros ->%bool_decide_eq_true. done.
  - destruct groups as [|m groups].
    + cbn. intros [_ H%bool_decide_eq_true]%andb_true_iff. lia.
    + cbn [is_uuid_groups].
      intros [[[_ Hlen%bool_decide_eq_true]%andb_true_iff
                 Hdash]%andb_true_iff Hrest]%andb_true_iff.
      apply IH in Hrest. apply startswith_string_drop in Hdash.
      rewrite <- (string_take_drop n s), string_length_app, Hlen, Hdash.
      cbn [String.length]. rewrite Hrest. cbn. lia.
Qed.

Lemma is_uuid_str_length s : is_uuid_str s = true → String.length s = 36%nat.
Proof. intros H. by apply is_uuid_groups_length in H. Qed.

(** X10. Two uploads for the same show get the same path only if the same
    identifier was generated for both, and then the uploaded names have the
    same extension: distinct identifiers give distinct paths, whatever the
    title and the uploaded names are. *)
Theorem equal_paths_have_equal_identifiers (slugify : string → string)
    (instance : AstronomyShow.t) (filename filename' uuid4 uuid4' : string) :
  is_uuid_str uuid4 = true →
  is_uuid_str uuid4' = true →
  show_image_file_path slugify instance filename uuid4
  = show_image_file_path slugify instance filename' uuid4' →
  uuid4 = uuid4' ∧ (splitext filename).2 = (splitext filename').2.
Proof.
  intros Hu Hu'. unfold show_image_file_path.
  destruct (splitext filename) as [root ext],
    (splitext filename') as [root' ext']. cbn [snd].
  set (slug := slugify (AstronomyShow.title instance)).
  assert (∀ rest rest',
    startswith sep (slug +:+ "-" +:+ rest)
    = startswith sep (slug +:+ "-" +:+ rest')) as Hstart.
  { intros rest rest'. by destruct slug. }
  unfold join. rewrite (Hstart (uuid4 +:+ ext) (uuid4' +:+ ext')).
  intros H.
  assert (uuid4 +:+ ext = uuid4' +:+ ext') as Heq.
  { destruct (startswith sep _).
    - apply string_app_inv_head in H. by injection H.
    - cbn [orb bool_decide] in H.
      destruct (bool_decide _ || endswith sep "uploads/movies/");
        apply string_app_inv_head in H.
      + apply string_app_inv_head in H. by injection H.
      + injection H as H. apply string_app_inv_head in H. by injection H. }
  apply string_app_inv_length in Heq; [done|].
  by rewrite !is_uuid_str_length.
Qed.

Lemma equal_paths_have_equal_identifiers_witness :
  is_uuid_str "3f2b8c1e-7a4d-4e2b-9c6f-0a1b2c3d4e5f" = true
  ∧ show_image_file_path slugify_ascii
      (AstronomyShow.mk "Sample show" None None) "a.jpg"
      "3f2b8c1e-7a4d-4e2b-9c6f-0a1b2c3d4e5f"
    = show_image_file_path slugify_ascii
        (AstronomyShow.mk "Sample show" None None) "dir/b.jpg"
        "3f2b8c1e-7a4d-4e2b-9c6f-0a1b2c3d4e5f"
  ∧ (splitext "a.jpg").2 = (splitext "dir/b.jpg").2.
Proof.
  assert (H1 : is_uuid_str "3f2b8c1e-7a4d-4e2b-9c6f-0a1b2c3d4e5f" = true)
    by reflexivity.
  assert (H2 : show_image_file_path slugify_ascii
                 (AstronomyShow.mk "Sample show" None None) "a.jpg"
                 "3f2b8c1e-7a4d-4e2b-9c6f-0a1b2c3d4e5f"
               = show_image_file_path slugify_ascii
                   (AstronomyShow.mk "Sample show" None None) "dir/b.jpg"
                   "3f2b8c1e-7a4d-4e2b-9c6f-0a1b2c3d4e5f")
    by reflexivity.
  split; [exact H1|]. split; [exact H2|].
  exact (proj2 (equal_paths_have_equal_identifiers slugify_ascii
                  (AstronomyShow.mk "Sample show" None None)
                  "a.jpg" "dir/b.jpg"
                  "3f2b8c1e-7a4d-4e2b-9c6f-0a1b2c3d4e5f"
                  "3f2b8c1e-7a4d-4e2b-9c6f-0a1b2c3d4e5f" H1 H1 H2)).
Defined.

Lemma rfind_string_drop c s :
  0 ≤ rfind c s →
  startswith c (string_drop (Z.to_nat (rfind c s)) s) = true.
Proof.
  induction s as [|a s IH]; [cbn; lia|]. cbn [rfind].
  destruct (0 <=? rfind c s) eqn:E.
  - apply Z.leb_le in E. intros _.
    replace (Z.to_nat (rfind c s + 1)) with (S (Z.to_nat (rfind c s)))
      by lia.
    cbn [string_drop]. by apply IH.
  - destruct (Ascii.eqb a c) eqn:Ha; [|lia]. intros _. cbn. exact Ha.
Qed.

(** X11. Of the uploaded file name, [show_image_file_path] keeps a suffix
    and nothing else: the extension is the end of the name and is either
    empty or one dot followed by characters among which there is no dot and
    no separator; a name with no dot after its last separator gives no
    extension; and two names with the same extension give the same path. *)
Theorem uploaded_name_gives_only_its_extension (slugify : string → string)
    (instance : AstronomyShow.t) (filename uuid4 : string) :
  let extension := (splitext filename).2 in
  (∃ root, filename = root +:+ extension)
  ∧ (extension = EmptyString
     ∨ ∃ rest, extension = String extsep rest
               ∧ rfind extsep rest = -1 ∧ rfind sep rest = -1)
  ∧ (rfind extsep filename ≤ rfind sep filename → extension = EmptyString)
  ∧ (∀ filename', (splitext filename').2 = extension →
       show_image_file_path slugify instance filename' uuid4
       = show_image_file_path slugify instance filename uuid4).
Proof.
  intros extension.
  destruct (splitext_spec filename) as [Hparts Hsep].
  split; [by exists (splitext filename).1|]. split; [|split].
  - subst extension. unfold splitext in *.
    destruct (rfind sep filename <? rfind extsep filename) eqn:E;
      [|by left].
    apply Z.ltb_lt in E. pose proof (rfind_ge sep filename) as Hge.
    destruct (splitext_loop_outcome filename
                (Z.to_nat (rfind extsep filename))
                (Z.to_nat (rfind sep filename + 1))
                (Z.to_nat (rfind extsep filename
                           - (rfind sep filename + 1)))) as [H|H];
      rewrite H in *; cbn [snd] in *; [by left|].
    right. exists (string_drop (S (Z.to_nat (rfind extsep filename))) filename).
    assert (string_drop (Z.to_nat (rfind extsep filename)) filename
            = String extsep
                (string_drop (S (Z.to_nat (rfind extsep filename))) filename))
      as Hdrop.
    { apply startswith_string_drop, rfind_string_drop. lia. }
    split; [done|]. split.
    + apply rfind_drop. lia.
    + rewrite Hdrop in Hsep. by apply rfind_cons_none in Hsep as [_ ?].
  - intros Hle. subst extension. unfold splitext.
    by rewrite (proj2 (Z.ltb_ge _ _) Hle).
  - intros filename' Hext. unfold show_image_file_path.
    fold extension. destruct (splitext filename') as [root' ext'].
    cbn in Hext. subst ext'. by destruct (splitext filename).
Qed.

(** ** The tickets of a session, in order *)

#[global] Instance Ticket_ordering_total : Total Ticket_ordering.
Proof. intros a b. unfold Ticket_ordering. lia. Qed.

#[global] Instance Ticket_ordering_transitive : Transitive Ticket_ordering.
Proof. intros a b c. unfold Ticket_ordering. lia. Qed.

Lemma StronglySorted_strengthen {A} (R R' : relation A) (l : list A) :
  StronglySorted R l → NoDup l →
  (∀ a b, a ∈ l → b ∈ l → a ≠ b → R a b → R' a b) →
  StronglySorted R' l.
Proof.
  induction 1 as [|a l Hl IH Ha]; intros Hnd HR; [constructor|].
  apply NoDup_cons in Hnd as [Hnotin Hnd].
  constructor.
  - apply IH; [done|]. intros x y Hx Hy. apply HR; by constructor.
  - apply Forall_forall. intros b Hb. rewrite Forall_forall in Ha.
    apply HR; [by constructor|by constructor| |by apply Ha].
    intros ->. done.
Qed.

(** X12. In every store that a history of operations builds,
    [session.tickets.all()] lists the tickets of the session, each once, in
    strictly increasing order of (row, seat): by [Meta.ordering] they come by
    row and then by seat, and by [unique_together] no two of them tie. *)
Theorem session_tickets_are_listed_in_strict_seat_order
    (clean_fields : Ticket.instance → DB → gmap string (list string))
    (history : list op) (s : Z) :
  let db := run clean_fields history empty_db in
  let listing := Ticket_in_order (session_tickets db s) in
  (∀ k x, (k, x) ∈ listing
          ↔ tickets db !! k = Some x ∧ Ticket.show_session x = s)
  ∧ NoDup listing
  ∧ StronglySorted
      (λ a b, Ticket.row a.2 < Ticket.row b.2
              ∨ (Ticket.row a.2 = Ticket.row b.2
                 ∧ Ticket.seat a.2 < Ticket.seat b.2))
      listing.
Proof.
  intros db listing.
  pose proof (merge_sort_Permutation Ticket_ordering
                (map_to_list (session_tickets db s))) as Hperm.
  fold (Ticket_in_order (session_tickets db s)) in Hperm. fold listing in Hperm.
  assert (∀ k x, (k, x) ∈ listing
            ↔ tickets db !! k = Some x ∧ Ticket.show_session x = s) as Hin.
  { intros k x. rewrite Hperm, elem_of_map_to_list.
    unfold session_tickets. by rewrite map_lookup_filter_Some. }
  assert (NoDup listing) as Hnd
    by (rewrite Hperm; apply NoDup_map_to_list).
  split; [done|]. split; [done|].
  destruct (run_from_empty_invariants clean_fields history) as [Hu _].
  fold db in Hu.
  apply (StronglySorted_strengthen Ticket_ordering); [|done|].
  { apply StronglySorted_merge_sort; apply _. }
  intros [i x] [j y] Hi Hj Hne Hle. cbn.
  apply Hin in Hi as [Hi Hxs]. apply Hin in Hj as [Hj Hys].
  destruct Hle as [Hlt|[Hrow Hseat]]; [by left|]. cbn in Hrow, Hseat.
  right. split; [done|].
  destruct (decide (Ticket.seat x = Ticket.seat y)) as [Heq|]; [|lia].
  exfalso. apply Hne.
  assert (i = j) as ->.
  { apply (Hu i j x y Hi Hj). unfold Ticket.unique_key. congruence. }
  congruence.
Qed.

Example tickets_in_order_example :
  Ticket_in_order
    (session_tickets
       (run related_rows_exist
          (sample_history
             ++ [ SaveTicket (Ticket.new None true (Ticket.mk 3 9 1 1))
                    false false;
                  SaveTicket (Ticket.new None true (Ticket.mk 3 2 1 1))
                    false false ])
          empty_db) 1)
  = [ (3, Ticket.mk 3 2 1 1); (2, Ticket.mk 3 9 1 1);
      (1, Ticket.mk 25 25 1 1) ].
Proof. vm_compute. reflexivity. Qed.

(** ** The text of a ticket *)

(** [str(n)] can be read back: different integers have different texts. *)
Lemma str_int_inj (n m : Z) : str_int n = str_int m → n = m.
Proof.
  unfold str_int. intros H. apply DecimalZ.to_int_inj.
  assert (∀ z, Z.to_int z ≠ Pos Nil ∧ Z.to_int z ≠ Neg Nil) as Hnz.
  { intros [|p|p]; cbn; split; try discriminate;
      intros [= Hp]; by apply Unsigned.to_uint_nonnil in Hp. }
  destruct (Hnz n) as [Hn1 Hn2], (Hnz m) as [Hm1 Hm2].
  pose proof (NilZero.isi _ Hn1 Hn2) as Hn.
  pose proof (NilZero.isi _ Hm1 Hm2) as Hm.
  rewrite H, Hm in Hn. by injection Hn.
Qed.

(** [str(n)] is made of digits and at most a minus sign: no comma. *)
Lemma str_int_no_comma (n : Z) : rfind ","%char (str_int n) = -1.
Proof.
  assert (∀ d, rfind ","%char (NilEmpty.string_of_uint d) = -1) as Hu.
  { induction d; cbn [NilEmpty.string_of_uint]; [done|..];
      by apply rfind_cons_none. }
  assert (∀ d, rfind ","%char (NilZero.string_of_uint d) = -1) as Hz.
  { intros d. destruct d; try apply Hu. done. }
  unfold str_int. destruct (Z.to_int n) as [d|d]; cbn [NilZero.string_of_int].
  - apply Hz.
  - apply rfind_cons_none. split; [done|apply Hz].
Qed.

Lemma string_split_unique (c : ascii) (a b r r' : string) :
  rfind c a = -1 → rfind c b = -1 →
  a +:+ String c r = b +:+ String c r' → a = b ∧ r = r'.
Proof.
  revert b. induction a as [|x a IH]; intros [|y b] Ha Hb.
  - cbn. by intros [= ->].
  - rewrite string_app_cons. cbn. intros [= <- _].
    apply rfind_cons_none in Hb as [Hb _].
    by rewrite Ascii.eqb_refl in Hb.
  - rewrite string_app_cons. cbn. intros [= -> _].
    apply rfind_cons_none in Ha as [Ha _].
    by rewrite Ascii.eqb_refl in Ha.
  - rewrite !string_app_cons. intros [= -> H].
    apply rfind_cons_none in Ha as [_ Ha], Hb as [_ Hb].
    destruct (IH b Ha Hb H) as [-> ->]. done.
Qed.

Lemma Ticket___str___eq str_datetime (x : Ticket.t) db session show :
  show_sessions db !! Ticket.show_session x = Some session →
  astronomy_shows db !! ShowSession.astronomy_show session = Some show →
  Ticket___str__ str_datetime x db
  = (Return ((AstronomyShow.title show +:+ " "
                +:+ str_datetime (ShowSession.show_time session))
             +:+ " | row: " +:+ str_int (Ticket.row x)
             +:+ ", seat: " +:+ str_int (Ticket.seat x)), db).
Proof.
  intros Hs Ha. unfold Ticket___str__. rewrite get_bind, Hs.
  unfold ShowSession___str__, mbind, M_bind, bind, get. by rewrite Ha.
Qed.

(** X13. In every store that a history of operations builds, [str(ticket)]
    of a stored ticket never raises: it is the text of the session, then
    [" | row: "], the row, [", seat: "] and the seat.  Within a session the
    text tells the tickets apart: two stored tickets of one session with
    the same text are the same row of the table. *)
Theorem ticket_text_identifies_the_seat
    (clean_fields : Ticket.instance → DB → gmap string (list string))
    (str_datetime : Z → string) (history : list op)
    (k : Z) (x : Ticket.t) :
  tickets (run clean_fields history empty_db) !! k = Some x →
  ∃ session show,
    show_sessions (run clean_fields history empty_db)
      !! Ticket.show_session x = Some session
    ∧ astronomy_shows (run clean_fields history empty_db)
        !! ShowSession.astronomy_show session = Some show
    ∧ Ticket___str__ str_datetime x (run clean_fields history empty_db)
      = (Return ((AstronomyShow.title show +:+ " "
                    +:+ str_datetime (ShowSession.show_time session))
                 +:+ " | row: " +:+ str_int (Ticket.row x)
                 +:+ ", seat: " +:+ str_int (Ticket.seat x)),
         run clean_fields history empty_db)
    ∧ ∀ k' x',
        tickets (run clean_fields history empty_db) !! k' = Some x' →
        Ticket.show_session x' = Ticket.show_session x →
        (Ticket___str__ str_datetime x' (run clean_fields history empty_db)).1
        = (Ticket___str__ str_datetime x (run clean_fields history empty_db)).1
        →
        k' = k.
Proof.
  set (db := run clean_fields history empty_db). intros Hk.
  destruct (foreign_keys_hold clean_fields history) as [Ht Hs]. fold db in Ht, Hs.
  destruct (Ht k x Hk) as [[session Hsession]%elem_of_dom _].
  destruct (Hs _ _ Hsession) as [[show Hshow]%elem_of_dom _].
  exists session, show. split; [done|]. split; [done|].
  pose proof (Ticket___str___eq str_datetime x db session show
                Hsession Hshow) as Hx.
  split; [done|].
  intros k' x' Hk' Hsame.
  rewrite Hx, (Ticket___str___eq str_datetime x' db session show)
    by (by rewrite ?Hsame).
  cbn [fst]. intros [= H].
  apply string_app_inv_head in H.
  assert (str_int (Ticket.row x') +:+ ", seat: " +:+ str_int (Ticket.seat x')
          = str_int (Ticket.row x) +:+ ", seat: " +:+ str_int (Ticket.seat x))
    as H'.
  { by apply (string_app_inv_head " | row: "). }
  apply (string_split_unique ","%char) in H' as [Hrow Hseat];
    try apply str_int_no_comma.
  apply (string_app_inv_head " seat: ") in Hseat.
  apply str_int_inj in Hrow, Hseat.
  destruct (run_from_empty_invariants clean_fields history) as [Hu _].
  fold db in Hu. apply (Hu k' k x' x Hk' Hk).
  unfold Ticket.unique_key. congruence.
Qed.

Lemma ticket_text_identifies_the_seat_witness :
  let x := Ticket.mk 25 25 1 1 in
  tickets sample_db !! 1 = Some x
  ∧ ∃ session show,
      show_sessions sample_db !! Ticket.show_session x = Some session
      ∧ astronomy_shows sample_db !! ShowSession.astronomy_show session
        = Some show
      ∧ Ticket___str__ str_int x sample_db
        = (Return ((AstronomyShow.title show +:+ " "
                      +:+ str_int (ShowSession.show_time session))
                   +:+ " | row: " +:+ str_int (Ticket.row x)
                   +:+ ", seat: " +:+ str_int (Ticket.seat x)),
           sample_db)
      ∧ ∀ k' x',
          tickets sample_db !! k' = Some x' →
          Ticket.show_session x' = Ticket.show_session x →
          (Ticket___str__ str_int x' sample_db).1
          = (Ticket___str__ str_int x sample_db).1 →
          k' = 1.
Proof.
  intros x.
  assert (H : tickets sample_db !! 1 = Some x) by (vm_compute; reflexivity).
  split; [exact H|].
  exact (ticket_text_identifies_the_seat related_rows_exist str_int
           sample_history 1 x H).
Defined.

Example ticket_text_example :
  Ticket___str__ str_int (Ticket.mk 25 25 1 1) sample_db
  = (Return "Sample show 1751893200 | row: 25, seat: 25", sample_db).
Proof. vm_compute. reflexivity. Qed.
